(** * mellium.im/xml: the byte-level splitter and the pull tokenizer

    A shallow embedding of [Split] (the [bufio.SplitFunc] of the package)
    and of [Tokenizer.Token] with its sub-decoders, followed by the
    properties that the design document states about them.

    Conventions of the embedding:
    - a Go [byte] is an [ascii]; a Go [string] is a [string]; a Go [[]byte]
      or [[]Attr] is a [slice], that is an optional list, [None] being the
      [nil] slice;
    - a Go [int] is a [Z]; the [uint8] counter of the comment decoder is a
      [Z] reduced modulo 256 at every increment;
    - [map[string]string] is a [gmap string string]; reading a missing key
      gives the empty string, as in Go;
    - the [io.ByteReader] is the list of bytes still to be read together
      with the error it reports once they are exhausted;
    - an index out of range is the outcome [Panics]. *)

From Stdlib Require Import ZArith Ascii String List Lia.
From stdpp Require Import base option list gmap strings.

Local Open Scope Z_scope.

(** ** Bytes, strings and slices *)

Abbreviation byte := ascii.

(** The double quote byte, 0x22. *)
Definition dquote : byte := "034"%char.
(** The byte 0, the zero value of [byte]. *)
Definition nul : byte := "000"%char.

Definition bytes (s : string) : list byte := list_ascii_of_string s.

(** A Go slice: [None] is [nil], [Some l] a non-nil slice of contents [l]. *)
Definition slice (A : Type) : Type := option (list A).

Definition elems {A} (s : slice A) : list A := default [] s.

(** [append(s, x)]: the result is never [nil]. *)
Definition append {A} (s : slice A) (x : A) : slice A := Some (elems s ++ [x]).

(** [len(s)] *)
Definition len {A} (l : list A) : Z := Z.of_nat (length l).

(** [s[:n]] for [0 <= n <= len(s)]. *)
Definition upto {A} (n : Z) (l : list A) : list A := take (Z.to_nat n) l.

(** [s[n:]] for [0 <= n <= len(s)]. *)
Definition from {A} (n : Z) (l : list A) : list A := drop (Z.to_nat n) l.

(** [strings.Builder.WriteByte] followed, at the end, by [String()]. *)
Definition WriteByte (sb : string) (b : byte) : string :=
  (sb +:+ String b EmptyString)%string.

(** ** Errors *)

Inductive error : Type :=
  | EOF                                  (* io.EOF *)
  | SyntaxError (Msg : string)           (* &SyntaxError{Msg: ...} *)
  | ErrExpectedGT (sep : byte)           (* "xml: expected > to end the element, got %q" *)
  | ErrBadAttrSep (sep : byte)           (* "xml: bad attribute separator %q" *)
  | ErrExpectedQuote                     (* "xml: expected quoted attribute value" *)
  | IOError (msg : string).              (* any other error of the reader *)

Definition errEarlyEOF : error := SyntaxError "early EOF".

(** [errors.Is(err, io.EOF)] *)
Definition isEOF (e : error) : bool :=
  match e with EOF => true | _ => false end.

(** What a Go call does: it returns, or it panics on an index out of range. *)
Inductive outcome (A : Type) : Type :=
  | Returns (a : A)
  | Panics.
Arguments Returns {A} a.
Arguments Panics {A}.

(** ** The splitter *)

Module Splitter.

Definition cdataStart : list byte := bytes "<![CDATA[".
Definition cdataEnd : list byte := bytes "]]>".

(** [bytes.HasPrefix] *)
Fixpoint HasPrefix (s pre : list byte) : bool :=
  match pre, s with
  | [], _ => true
  | _ :: _, [] => false
  | p :: pre', b :: s' => (b =? p)%char && HasPrefix s' pre'
  end.

(** [bytes.Index]: the index of the first instance of [sep] in [s], or -1. *)
Fixpoint Index (s sep : list byte) : Z :=
  if HasPrefix s sep then 0
  else match s with
       | [] => -1
       | _ :: s' => let i := Index s' sep in
                    if i =? -1 then -1 else i + 1
       end.

(** [bytes.IndexByte] *)
Fixpoint IndexByte (s : list byte) (c : byte) : Z :=
  match s with
  | [] => -1
  | b :: s' => if (b =? c)%char then 0
               else let i := IndexByte s' c in
                    if i =? -1 then -1 else i + 1
  end.

(** The three results of a [bufio.SplitFunc]. *)
Record result : Type := Result {
  advance : Z;
  token : slice byte;
  err : option error
}.

Definition splitCData (data : list byte) (atEOF : bool) : result :=
  let idx := Index data cdataEnd in
  if idx =? -1 then
    if atEOF then Result (len data) (Some data) None
    else Result 0 None None
  else Result (idx + len cdataEnd) (Some (upto (idx + len cdataEnd) data)) None.

Definition splitCharData (data : list byte) (atEOF : bool) : result :=
  let idx := IndexByte data "<"%char in
  if idx =? -1 then
    if atEOF then Result (len data) (Some data) None
    else Result 0 None None
  else Result idx (Some (upto idx data)) None.

(** The [for i, b := range data] loop of [splitOther]: [rest] is [data[i:]];
    [Some r] when the loop returns [r], [None] when it runs to the end. *)
Fixpoint splitOther_loop (data rest : list byte) (i : Z) (startQuote : byte)
    : option result :=
  match rest with
  | [] => None
  | b :: rest' =>
      if negb (startQuote =? nul)%char then
        splitOther_loop data rest' (i + 1)
          (if (b =? startQuote)%char then nul else startQuote)
      else if (b =? dquote)%char || (b =? "'")%char then
        splitOther_loop data rest' (i + 1) b
      else if (b =? ">")%char then
        Some (Result (i + 1) (Some (upto (i + 1) data)) None)
      else splitOther_loop data rest' (i + 1) startQuote
  end.

Definition splitOther (data : list byte) (atEOF : bool) : result :=
  match splitOther_loop data data 0 nul with
  | Some r => r
  | None =>
      if atEOF then Result (len data) (Some data) None
      else Result 0 None None
  end.

(** [Split]; [data[0]] on an empty slice is an index out of range. *)
Definition Split (data : list byte) (atEOF : bool) : outcome result :=
  if (len data =? 0) && atEOF then Returns (Result 0 None (Some EOF))
  else if HasPrefix data cdataStart then Returns (splitCData data atEOF)
  else match data with
       | [] => Panics
       | b0 :: _ =>
           if negb (b0 =? "<")%char then Returns (splitCharData data atEOF)
           else Returns (splitOther data atEOF)
       end.

End Splitter.

(** ** The tokenizer *)

Module Lexer.

Record Name : Type := mkName { Space : string; Local : string }.

Record Attr : Type := mkAttr { AName : Name; Value : string }.

(** [xml.Token], the interface value that [Tokenizer.Token] returns. *)
Inductive XMLToken : Type :=
  | StartElement (name : Name) (attr : slice Attr)
  | EndElement (name : Name)
  | CharData (data : slice byte)
  | Comment (data : slice byte)
  | Directive (data : slice byte)
  | ProcInst (Target : string) (Inst : slice byte).

(** The zero value [Name{}]. *)
Definition Name0 : Name := mkName EmptyString EmptyString.

(** The [io.ByteReader]: the bytes still to come, and the error that
    [ReadByte] reports when there are none left. *)
Record Reader : Type := mkReader { input : list byte; final : error }.

Record Tokenizer : Type := mkTokenizer {
  r : Reader;
  foundStart : bool;
  selfClose : option Name;
  prefixes : list (gmap string string);
  spaces : list string
}.

Definition setInput (t : Tokenizer) (inp : list byte) : Tokenizer :=
  mkTokenizer (mkReader inp (final (r t))) (foundStart t) (selfClose t)
    (prefixes t) (spaces t).

Definition setFoundStart (t : Tokenizer) (b : bool) : Tokenizer :=
  mkTokenizer (r t) b (selfClose t) (prefixes t) (spaces t).

Definition setSelfClose (t : Tokenizer) (n : option Name) : Tokenizer :=
  mkTokenizer (r t) (foundStart t) n (prefixes t) (spaces t).

Definition setPrefixes (t : Tokenizer) (p : list (gmap string string)) : Tokenizer :=
  mkTokenizer (r t) (foundStart t) (selfClose t) p (spaces t).

Definition setSpaces (t : Tokenizer) (s : list string) : Tokenizer :=
  mkTokenizer (r t) (foundStart t) (selfClose t) (prefixes t) s.

(** [NewTokenizer] on a reader holding [inp] and then reporting [io.EOF]. *)
Definition NewTokenizer (inp : list byte) : Tokenizer :=
  mkTokenizer (mkReader inp EOF) false None [] [].

(** [t.r.ReadByte()] *)
Definition ReadByte (t : Tokenizer) : (byte + error) * Tokenizer :=
  match input (r t) with
  | [] => (inr (final (r t)), t)
  | b :: rest => (inl b, setInput t rest)
  end.

(** [m[k]] on a Go map: the zero value when the key is absent. *)
Definition mapGet (m : gmap string string) (k : string) : string :=
  default EmptyString (m !! k).

(** [s[len(s)-1] = v]. The two places that do this follow a push. *)
Definition setTop {A} (s : list A) (v : A) : list A :=
  <[Nat.pred (length s) := v]> s.

(** [s[:len(s)-1]] *)
Definition dropTop {A} (s : list A) : list A :=
  take (Nat.pred (length s)) s.

(** The last element of a stack. *)
Definition top {A} (s : list A) : option A := s !! Nat.pred (length s).

Definition isSpace (b : byte) : bool :=
  (b =? "032")%char || (b =? "009")%char || (b =? "013")%char || (b =? "010")%char.

(** The loop of [decodeName] over [t.spaces], from the top down:
    [space = t.spaces[i]; if space != "" { break }]. *)
Fixpoint walkSpaces (down : list string) (space : string) : string :=
  match down with
  | [] => space
  | s :: down' => if negb (s =? EmptyString)%string then s else walkSpaces down' s
  end.

(** The loop of [decodeName] over [t.prefixes], from the top down. *)
Fixpoint walkPrefixes (down : list (gmap string string)) (space : string) : string :=
  match down with
  | [] => space
  | m :: down' =>
      let resolvedSpace := mapGet m space in
      if negb (resolvedSpace =? EmptyString)%string then resolvedSpace
      else walkPrefixes down' space
  end.

(** [decodeDirective] *)
Fixpoint decodeDirective_loop (fin : error) (inp : list byte) (dir : slice byte)
    : (slice byte * option error) * list byte :=
  match inp with
  | [] => ((None, Some fin), [])
  | b :: inp' =>
      if (b =? ">")%char then ((dir, None), inp')
      else decodeDirective_loop fin inp' (append dir b)
  end.

Definition decodeDirective (t : Tokenizer) (dir : slice byte)
    : (slice byte * option error) * Tokenizer :=
  let '(res, rest) := decodeDirective_loop (final (r t)) (input (r t)) dir in
  (res, setInput t rest).

(** [for i := uint8(0); i < found; i++ { comment = append(comment, '-') }] *)
Fixpoint flushDashes (n : nat) (comment : slice byte) : slice byte :=
  match n with
  | O => comment
  | S n' => flushDashes n' (append comment "-"%char)
  end.

(** [decodeComment]; [found] is a [uint8]: [found++] wraps at 256. *)
Fixpoint decodeComment_loop (fin : error) (inp : list byte)
    (comment : slice byte) (found : Z) : (slice byte * option error) * list byte :=
  match inp with
  | [] => ((None, Some fin), [])
  | b :: inp' =>
      if (b =? "-")%char then
        decodeComment_loop fin inp' comment ((found + 1) mod 256)
      else if (b =? ">")%char && (1 <? found) then ((comment, None), inp')
      else
        decodeComment_loop fin inp'
          (append (flushDashes (Z.to_nat found) comment) b) 0
  end.

Definition decodeComment (t : Tokenizer) (comment : slice byte)
    : (slice byte * option error) * Tokenizer :=
  let '(res, rest) := decodeComment_loop (final (r t)) (input (r t)) comment 0 in
  (res, setInput t rest).

(** [decodeProcInst]; the result is [(Target, Inst)]. *)
Fixpoint decodeProcInst_loop (fin : error) (inp : list byte) (inst : slice byte)
    (foundSpace foundEnd : bool) (target : string)
    : ((string * slice byte) * option error) * list byte :=
  match inp with
  | [] => (((EmptyString, None), Some fin), [])
  | b :: inp' =>
      (* what the [switch b] leaves: [None] for a [return] or a [continue]
         taken inside it, otherwise the new [foundSpace] *)
      let write (foundSpace : bool) :=
        if foundSpace then
          if (String.length target =? 0)%nat then
            (((EmptyString, None),
              Some (SyntaxError "xml: expected target name after <?")), inp')
          else
            decodeProcInst_loop fin inp'
              (append (if foundEnd then append inst "?"%char else inst) b)
              foundSpace false target
        else
          decodeProcInst_loop fin inp' inst foundSpace foundEnd (WriteByte target b) in
      if (b =? ">")%char then
        if foundEnd then (((target, inst), None), inp')
        else write true
      else if (b =? "?")%char then
        decodeProcInst_loop fin inp' inst true true target
      else if isSpace b then
        if negb foundSpace then
          decodeProcInst_loop fin inp' inst true foundEnd target
        else write foundSpace
      else write foundSpace
  end.

Definition decodeProcInst (t : Tokenizer) (inst : slice byte)
    : ((string * slice byte) * option error) * Tokenizer :=
  let '(res, rest) :=
    decodeProcInst_loop (final (r t)) (input (r t)) inst false false EmptyString in
  (res, setInput t rest).

(** [decodeCharData]; the boolean tells whether [t.foundStart] was set. *)
Fixpoint decodeCharData_loop (fin : error) (inp : list byte) (buf : slice byte)
    : (slice byte * option error * bool) * list byte :=
  match inp with
  | [] => ((None, Some fin, false), [])
  | b :: inp' =>
      if (b =? "<")%char then ((buf, None, true), inp')
      else decodeCharData_loop fin inp' (append buf b)
  end.

Definition decodeCharData (t : Tokenizer) (buf : slice byte)
    : (slice byte * option error) * Tokenizer :=
  let '((data, e, found), rest) :=
    decodeCharData_loop (final (r t)) (input (r t)) buf in
  let t' := setInput t rest in
  ((data, e), if found then setFoundStart t' true else t').

(** *** Names, attributes and elements

    [isNameByte] is not among the sources at hand; the decoders take it as
    a parameter. *)

Section Decoders.

Variable isNameByte : byte -> bool.

(** The result of [decodeName]: the name, the byte that ended it, whether a
    default namespace applied, and the error. *)
Definition nameResult : Type := Name * byte * bool * option error.

(** The [for] loop of [decodeName]. *)
Fixpoint decodeName_loop (pfx : list (gmap string string)) (fin : error)
    (inp : list byte) (space : string) (foundSep : bool)
    (rawFirst rawSecond : string) : nameResult * list byte :=
  match inp with
  | [] => ((Name0, nul, false, Some fin), [])
  | b :: inp' =>
      if negb (isNameByte b) then
        if foundSep then
          ((mkName (walkPrefixes (reverse pfx) rawFirst) rawSecond, b, false, None),
           inp')
        else
          ((mkName space rawFirst, b, negb (space =? EmptyString)%string, None),
           inp')
      else if (b =? ":")%char then
        decodeName_loop pfx fin inp' space true rawFirst rawSecond
      else if foundSep then
        decodeName_loop pfx fin inp' space foundSep rawFirst (WriteByte rawSecond b)
      else
        decodeName_loop pfx fin inp' space foundSep (WriteByte rawFirst b) rawSecond
  end.

Definition decodeName (t : Tokenizer) (b : byte) (attr : bool)
    : nameResult * Tokenizer :=
  let space :=
    if negb attr then walkSpaces (reverse (spaces t)) EmptyString
    else EmptyString in
  let rawFirst :=
    if negb (b =? nul)%char then WriteByte EmptyString b else EmptyString in
  let '(res, rest) :=
    decodeName_loop (prefixes t) (final (r t)) (input (r t)) space false
      rawFirst EmptyString in
  (res, setInput t rest).

(** The value loop of [decodeAttr]. *)
Fixpoint decodeAttr_value (fin : error) (inp : list byte) (quote : byte)
    (name : Name) (raw : string) : (Attr * option error) * list byte :=
  match inp with
  | [] => ((mkAttr Name0 EmptyString, Some fin), [])
  | b :: inp' =>
      if (b =? quote)%char then ((mkAttr name raw, None), inp')
      else decodeAttr_value fin inp' quote name (WriteByte raw b)
  end.

Definition Attr0 : Attr := mkAttr Name0 EmptyString.

Definition decodeAttr (t : Tokenizer) (b : byte) : (Attr * option error) * Tokenizer :=
  match decodeName t b true with
  | ((_, _, _, Some e), t1) => ((Attr0, Some e), t1)
  | ((name, sep, _, None), t1) =>
      if negb (sep =? "=")%char then ((Attr0, Some (ErrBadAttrSep sep)), t1)
      else
        match ReadByte t1 with
        | (inr e, t2) => ((Attr0, Some e), t2)
        | (inl b, t2) =>
            if negb (b =? "'")%char && negb (b =? dquote)%char then
              ((Attr0, Some ErrExpectedQuote), t2)
            else
              let '(res, rest) :=
                decodeAttr_value (final (r t2)) (input (r t2)) b name EmptyString in
              (res, setInput t2 rest)
        end
  end.

(** What [decodeStartElement] returns: a [StartElement] value and an error. *)
Definition startResult : Type := (Name * slice Attr) * option error.

(** [StartElement{}] *)
Definition Start0 : Name * slice Attr := (Name0, None).

(** The namespace bookkeeping done after each attribute. *)
Definition bookkeep (t : Tokenizer) (name : Name) (def : bool) (a : Attr)
    : Tokenizer * Name * bool :=
  if (Space (AName a) =? EmptyString)%string && (Local (AName a) =? "xmlns")%string then
    (setSpaces t (setTop (spaces t) (Value a)), mkName (Value a) (Local name), true)
  else if (Space (AName a) =? "xmlns")%string then
    let t' :=
      setPrefixes t
        (match top (prefixes t) with
         | Some m => setTop (prefixes t) (<[Local (AName a) := Value a]> m)
         | None => prefixes t
         end) in
    if negb def && negb (Space name =? EmptyString)%string
       && (Space name =? Local (AName a))%string
    then (t', mkName (Value a) (Local name), def)
    else (t', name, def)
  else (t, name, def).

(** The [for] loop of [decodeStartElement]. Every turn reads at least one
    byte; [fuel] bounds the number of turns and [None] means it ran out. *)
Fixpoint decodeStartElement_loop (fuel : nat) (t : Tokenizer) (name : Name)
    (sep : byte) (def : bool) (attr : slice Attr) : option (startResult * Tokenizer) :=
  match fuel with
  | O => None
  | S fuel' =>
      if isSpace sep then
        match ReadByte t with
        | (inr e, t1) => Some ((Start0, Some e), t1)
        | (inl sep', t1) => decodeStartElement_loop fuel' t1 name sep' def attr
        end
      else if (sep =? "/")%char then
        let t0 := setSelfClose t (Some name) in
        match ReadByte t0 with
        | (inr e, t1) => Some ((Start0, Some e), t1)
        | (inl sep', t1) =>
            if negb (sep' =? ">")%char then Some ((Start0, Some (ErrExpectedGT sep')), t1)
            else Some (((name, attr), None), t1)
        end
      else if (sep =? ">")%char then Some (((name, attr), None), t)
      else
        match decodeAttr t sep with
        | ((_, Some e), t1) => Some ((Start0, Some e), t1)
        | ((a, None), t1) =>
            match ReadByte t1 with
            | (inr e, t2) => Some ((Start0, Some e), t2)
            | (inl sep', t2) =>
                let attr' :=
                  if negb (Local (AName a) =? EmptyString)%string then append attr a
                  else attr in
                let '(t3, name', def') := bookkeep t2 name def a in
                decodeStartElement_loop fuel' t3 name' sep' def' attr'
            end
        end
  end.

Definition decodeStartElement (t : Tokenizer) (b : byte)
    : option (startResult * Tokenizer) :=
  let t0 := setPrefixes (setSpaces t (spaces t ++ [EmptyString])) (prefixes t ++ [∅]) in
  match decodeName t0 b false with
  | ((_, _, _, Some e), t1) => Some ((Start0, Some e), t1)
  | ((name, sep, def, None), t1) =>
      decodeStartElement_loop (S (length (input (r t1)))) t1 name sep def (Some [])
  end.

(** The deferred function of [decodeEndElement]. *)
Definition popStacks (t : Tokenizer) : Tokenizer :=
  let t1 :=
    if (0 <? len (prefixes t)) then setPrefixes t (dropTop (prefixes t)) else t in
  if (0 <? len (spaces t1)) then setSpaces t1 (dropTop (spaces t1)) else t1.

Definition decodeEndElement (t : Tokenizer) : (Name * option error) * Tokenizer :=
  match decodeName t nul false with
  | ((_, _, _, Some e), t1) => ((Name0, Some e), popStacks t1)
  | ((name, _, _, None), t1) => ((name, None), popStacks t1)
  end.

(** What [Token] returns: a [Token] interface value, [None] being [nil],
    and an error. *)
Definition tokenResult : Type := option XMLToken * option error.

(** Reads of [Token] itself turn [io.EOF] into [errEarlyEOF]. *)
Definition early (e : error) : error := if isEOF e then errEarlyEOF else e.

(** [Tokenizer.Token]. [None] only if the start element loop ran out of
    fuel, which [Token_returns] below excludes. *)
Definition Token (t : Tokenizer) : option (tokenResult * Tokenizer) :=
  match selfClose t with
  | Some name => Some ((Some (EndElement name), None), setSelfClose t None)
  | None =>
      match (if foundStart t then (inl "<"%char, setFoundStart t false)
             else ReadByte t) with
      | (inr e, t1) => Some ((None, Some e), t1)
      | (inl b, t1) =>
          if negb (b =? "<")%char then
            let '((data, e), t2) := decodeCharData t1 (Some [b]) in
            Some ((Some (CharData data), e), t2)
          else
            match ReadByte t1 with
            | (inr e, t2) => Some ((None, Some (early e)), t2)
            | (inl b, t2) =>
                if (b =? "!")%char then
                  match ReadByte t2 with
                  | (inr e, t3) => Some ((None, Some (early e)), t3)
                  | (inl b, t3) =>
                      if (b =? "-")%char then
                        match ReadByte t3 with
                        | (inr e, t4) => Some ((None, Some (early e)), t4)
                        | (inl b', t4) =>
                            if (b' =? "-")%char then
                              let '((data, e), t5) := decodeComment t4 (Some []) in
                              Some ((Some (Comment data), e), t5)
                            else
                              Some ((None,
                                     Some (SyntaxError
                                       "invalid sequence <!- not part of <!--")), t4)
                        end
                      else
                        let '((data, e), t4) := decodeDirective t3 (Some [b]) in
                        Some ((Some (Directive data), e), t4)
                  end
                else if (b =? "?")%char then
                  match decodeProcInst t2 None with
                  | ((_, Some e), t3) => Some ((None, Some e), t3)
                  | (((target, inst), None), t3) =>
                      Some ((Some (ProcInst target inst), None), t3)
                  end
                else if (b =? "/")%char then
                  let '((name, e), t3) := decodeEndElement t2 in
                  Some ((Some (EndElement name), e), t3)
                else
                  match decodeStartElement t2 b with
                  | Some (((name, attr), e), t3) =>
                      Some ((Some (StartElement name attr), e), t3)
                  | None => None
                  end
            end
      end
  end.

End Decoders.

(** Modelled from the spec: [isNameByte] is called by [decodeName] and is
    missing from the sources. The glossary gives the name bytes as the ASCII
    letters, the digits, [-], [_], [.] and every byte with the high bit set;
    the colon, which [decodeName] tests only after [isNameByte] has accepted
    the byte, is a name byte too. *)
Definition isNameByte (c : byte) : bool :=
  let n := N_of_ascii c in
  ((65 <=? n) && (n <=? 90) || (97 <=? n) && (n <=? 122)
   || (48 <=? n) && (n <=? 57)
   || (c =? "_")%char || (c =? ":")%char || (c =? ".")%char || (c =? "-")%char
   || (128 <=? n))%N.

End Lexer.

(** ** Vocabulary of the statements *)

Module SplitSpec.
Import Splitter.

(** The quote state of the scan of [splitOther], as the design document
    words it: outside quotes, or inside quotes opened by [q]. *)
Inductive qmode : Type :=
  | Unquoted
  | Quoted (q : byte).

Definition qstep (m : qmode) (b : byte) : qmode :=
  match m with
  | Unquoted =>
      if (b =? dquote)%char || (b =? "'")%char then Quoted b else Unquoted
  | Quoted q => if (b =? q)%char then Unquoted else Quoted q
  end.

(** The quote state reached after scanning [l] from the unquoted state. *)
Definition qmodeAfter (l : list byte) : qmode := fold_left qstep l Unquoted.

(** Byte [i] of [data] is a [>] met in unquoted mode. *)
Definition closesAt (data : list byte) (i : nat) : Prop :=
  data !! i = Some ">"%char /\ qmodeAfter (take i data) = Unquoted.

(** A scanner driving [Split] over [input] until it is used up. Each call
    sees some prefix of what is left, with [atEOF] set only when that prefix
    is everything; an emitted token is appended and the buffer advanced by
    the returned amount. Calls that ask for more data leave the buffer as it
    is and are not recorded. *)
Inductive Scans : list byte -> list (list byte) -> Prop :=
  | Scans_done : Scans [] []
  | Scans_token rest n atEOF res tok toks :
      (n <= length rest)%nat ->
      (atEOF = true -> n = length rest) ->
      Split (take n rest) atEOF = Returns res ->
      token res = Some tok ->
      err res = None ->
      Scans (from (advance res) rest) toks ->
      Scans rest (tok :: toks).

(** The scanner that has the whole input buffered at end of input. *)
Fixpoint scanAll (fuel : nat) (data : list byte) : option (list (list byte)) :=
  match fuel with
  | O => None
  | S fuel' =>
      match Split data true with
      | Returns (Result adv (Some tok) None) =>
          cons tok <$> scanAll fuel' (from adv data)
      | Returns _ => Some []
      | Panics => None
      end
  end.

(** How the [startQuote] byte of the loop stands for the quote state. *)
Definition quoteRep (m : qmode) (startQuote : byte) : Prop :=
  match m with
  | Unquoted => startQuote = nul
  | Quoted q => startQuote = q /\ q <> nul
  end.

End SplitSpec.

Module LexSpec.
Import Lexer.

(** The bytes that the tokenizer has yet to interpret: what is left in the
    reader, after the [<] that character data has already consumed. *)
Definition pending (t : Tokenizer) : list byte :=
  if foundStart t then "<"%char :: input (r t) else input (r t).

(** The string that a run of [WriteByte] builds. *)
Definition str (l : list byte) : string := string_of_list_ascii l.

Definition isColon (c : byte) : bool := (c =? ":")%char.

(** The part of a qualified name before its first colon. *)
Fixpoint beforeColon (body : list byte) : list byte :=
  match body with
  | [] => []
  | c :: body' => if isColon c then [] else c :: beforeColon body'
  end.

(** The part after the first colon, later colons left out; [None] when the
    name has no colon. *)
Fixpoint afterColon (body : list byte) : option (list byte) :=
  match body with
  | [] => None
  | c :: body' =>
      if isColon c then Some (List.filter (fun c => negb (isColon c)) body')
      else afterColon body'
  end.

(** The name that [body] denotes under the stacks of [t]: [first] is what
    the caller has already put in the primary buffer. A prefixed name takes
    the nearest non-empty binding of its prefix, and the prefix itself when
    there is none; an unprefixed one takes the nearest non-empty default
    namespace, unless it names an attribute. *)
Definition denotes (t : Tokenizer) (attr : bool) (first : string)
    (body : list byte) : Name :=
  match afterColon body with
  | Some l =>
      mkName (walkPrefixes (reverse (prefixes t)) (first +:+ str (beforeColon body)))
        (str l)
  | None =>
      mkName (if attr then EmptyString
              else walkSpaces (reverse (spaces t)) EmptyString)
        (first +:+ str body)
  end.

(** The state in which [decodeStartElement] decodes the name. *)
Definition pushed (t : Tokenizer) : Tokenizer :=
  setPrefixes (setSpaces t (spaces t ++ [EmptyString])) (prefixes t ++ [∅]).

(** [n] calls of [Token], with the results in order. *)
Fixpoint tokens (isNameByte : byte -> bool) (n : nat) (t : Tokenizer)
    : list tokenResult * option Tokenizer :=
  match n with
  | O => ([], Some t)
  | S n' =>
      match Token isNameByte t with
      | None => ([], None)
      | Some (res, t') =>
          let '(l, t'') := tokens isNameByte n' t' in (res :: l, t'')
      end
  end.

(** [s] between double quotes. *)
Definition quoted (s : string) : list byte := dquote :: bytes s ++ [dquote].

(** The input of the fifth scenario of the design document. *)
Definition scenario5 : list byte :=
  bytes "<baz xmlns=" ++ quoted "g" ++ bytes " g:test=" ++ quoted "yes" ++
  bytes "><bar xmlns:g=" ++ quoted "me" ++ bytes "><foo/></bar></baz>".

(** What the first call of [Token] returns on a fresh tokenizer. *)
Definition firstResult (inp : list byte) : option tokenResult :=
  fst <$> Token isNameByte (NewTokenizer inp).

(** The two namespace stacks have the same height. *)
Definition aligned (t : Tokenizer) : Prop :=
  length (prefixes t) = length (spaces t).

(** [t'] is [t] after some bytes have been read, nothing else changed. *)
Definition reads (t t' : Tokenizer) : Prop :=
  exists rest, t' = setInput t rest /\ rest `suffix_of` input (r t).

(** The bodies of comments that [decodeComment] gives back unchanged: runs
    of fewer than 256 dashes, each followed by a byte that is not a dash and,
    after two dashes or more, not [>]. *)
Inductive commentBody : list byte -> Prop :=
  | commentBody_nil : commentBody []
  | commentBody_run (n : nat) (b : byte) (body : list byte) :
      (n < 256)%nat -> b <> "-"%char -> (b = ">"%char -> (n < 2)%nat) ->
      commentBody body ->
      commentBody (replicate n "-"%char ++ b :: body).

(** A byte that may stand in the target of a processing instruction. *)
Definition targetByte (b : byte) : bool :=
  negb ((b =? ">")%char || (b =? "?")%char || isSpace b).

(** The slice that [append] builds from [nil]: [nil] itself when nothing was
    appended. *)
Definition grown {A} (l : list A) : slice A :=
  match l with [] => None | _ => Some l end.

End LexSpec.

(** * Properties of the splitter *)

Import Splitter SplitSpec.

(** ** Lengths and indices *)


Lemma len_nil {A} : len (@nil A) = 0.
Proof. reflexivity. Qed.

Lemma len_cons {A} (x : A) l : len (x :: l) = len l + 1.
Proof. unfold len. simpl. lia. Qed.

Lemma len_nonneg {A} (l : list A) : 0 <= len l.
Proof. unfold len. lia. Qed.

Lemma upto_len {A} (l : list A) : upto (len l) l = l.
Proof. unfold upto, len. rewrite Nat2Z.id. apply firstn_all. Qed.

Lemma len_upto {A} n (l : list A) : 0 <= n <= len l -> len (upto n l) = n.
Proof. unfold upto, len. intros H. rewrite length_take. lia. Qed.

Lemma upto_succ_cons {A} n (x : A) l : 0 <= n -> upto (n + 1) (x :: l) = x :: upto n l.
Proof.
  intros H. unfold upto. replace (Z.to_nat (n + 1)) with (S (Z.to_nat n)) by lia.
  reflexivity.
Qed.

Lemma HasPrefix_len s pre : HasPrefix s pre = true -> len pre <= len s.
Proof.
  revert s. induction pre as [|p pre IH]; intros s H.
  - apply len_nonneg.
  - destruct s as [|b s]; simpl in H; [discriminate|].
    apply andb_true_iff in H as [_ H]. apply IH in H. rewrite !len_cons. lia.
Qed.

Lemma Index_range s sep :
  Index s sep = -1 \/ (0 <= Index s sep /\ Index s sep + len sep <= len s).
Proof.
  induction s as [|b s IH].
  - cbn [Index]. destruct (HasPrefix [] sep) eqn:E; [|by left].
    right. apply HasPrefix_len in E. pose proof (len_nonneg sep). lia.
  - cbn [Index]. destruct (HasPrefix (b :: s) sep) eqn:E.
    + right. apply HasPrefix_len in E. lia.
    + destruct (Index s sep =? -1) eqn:E1; [by left|].
      apply Z.eqb_neq in E1. right. rewrite len_cons. lia.
Qed.

Lemma IndexByte_range s c :
  IndexByte s c = -1 \/ (0 <= IndexByte s c < len s).
Proof.
  induction s as [|b s IH]; [by left|].
  cbn [IndexByte]. rewrite len_cons. destruct (b =? c)%char.
  - right. pose proof (len_nonneg s). lia.
  - destruct (IndexByte s c =? -1) eqn:E1; [by left|].
    apply Z.eqb_neq in E1. right. lia.
Qed.

Lemma IndexByte_cons_ne b s c :
  (b =? c)%char = false -> IndexByte (b :: s) c <> 0.
Proof.
  intros Hb. cbn [IndexByte]. rewrite Hb.
  destruct (IndexByte_range s c) as [E|E].
  - rewrite E. simpl. lia.
  - destruct (IndexByte s c =? -1); lia.
Qed.

Lemma splitOther_loop_range data rest i q res :
  0 <= i -> i + len rest <= len data ->
  splitOther_loop data rest i q = Some res ->
  err res = None /\ 0 < advance res <= len data /\
  token res = Some (upto (advance res) data).
Proof.
  revert i q. induction rest as [|b rest IH]; intros i q Hi Hle H; [discriminate|].
  rewrite len_cons in Hle. pose proof (len_nonneg rest).
  cbn [splitOther_loop] in H.
  repeat match type of H with
  | (if ?c then _ else _) = _ => destruct c
  end; try (apply IH in H; [exact H|lia|lia]).
  injection H as <-. simpl. repeat split; lia.
Qed.

(** Whatever [Split] emits is the first [advance] bytes of its input. *)
Lemma Split_token_prefix data atEOF res tok :
  Split data atEOF = Returns res -> token res = Some tok ->
  err res = None /\ 0 <= advance res <= len data /\
  tok = upto (advance res) data /\ advance res = len tok.
Proof.
  unfold Split. intros H Htok.
  assert (Hmain : err res = None /\ 0 <= advance res <= len data /\
                  tok = upto (advance res) data).
  { pose proof (len_nonneg data) as Hlen.
    destruct ((len data =? 0) && atEOF).
    { injection H as <-. discriminate. }
    destruct (HasPrefix data cdataStart) eqn:Hpre.
    { injection H as <-. unfold splitCData in Htok |- *.
      destruct (Index_range data cdataEnd) as [E|[E1 E2]].
      - rewrite E in *. simpl in *. destruct atEOF; simpl in *; [|discriminate].
        injection Htok as <-. rewrite upto_len. repeat split; lia.
      - destruct (Index data cdataEnd =? -1) eqn:E; [apply Z.eqb_eq in E; lia|].
        simpl in *. injection Htok as <-. pose proof (len_nonneg cdataEnd).
        repeat split; lia. }
    destruct data as [|b0 data']; [discriminate|].
    destruct (negb (b0 =? "<")%char).
    { injection H as <-. unfold splitCharData in Htok |- *.
      destruct (IndexByte_range (b0 :: data') "<"%char) as [E|E].
      - rewrite E in *. simpl in *. destruct atEOF; simpl in *; [|discriminate].
        injection Htok as <-. rewrite upto_len. repeat split; lia.
      - destruct (IndexByte (b0 :: data') "<" =? -1) eqn:E'; [apply Z.eqb_eq in E'; lia|].
        simpl in *. injection Htok as <-. repeat split; lia. }
    injection H as <-. unfold splitOther in Htok |- *.
    destruct (splitOther_loop (b0 :: data') (b0 :: data') 0 nul) as [r|] eqn:E.
    - apply splitOther_loop_range in E as (E1 & E2 & E3); [|lia|lia].
      rewrite E3 in Htok. injection Htok as <-. repeat split; [done|lia|lia].
    - destruct atEOF; simpl in *; [|discriminate].
      injection Htok as <-. rewrite upto_len. repeat split; lia. }
  destruct Hmain as (H1 & H2 & H3). repeat split; try done; try lia.
  subst tok. by rewrite len_upto.
Qed.

(** ** The cover property *)



(** On a buffer that holds bytes at end of input, [Split] emits a token
    that is not empty. *)
Lemma Split_atEOF_progress (data : list byte) :
  data <> [] ->
  exists adv tok, Split data true = Returns (Result adv (Some tok) None) /\
                  0 < adv <= len data.
Proof.
  intros Hne. destruct data as [|b0 data']; [done|].
  set (data := b0 :: data').
  assert (Hlen : 0 < len data) by (unfold data; rewrite len_cons; pose proof (len_nonneg data'); lia).
  unfold Split. replace (len data =? 0) with false by (symmetry; apply Z.eqb_neq; lia).
  simpl andb. cbv iota.
  destruct (HasPrefix data cdataStart) eqn:Hpre.
  { unfold splitCData.
    destruct (Index_range data cdataEnd) as [E|[E1 E2]].
    - rewrite E. simpl. eexists _, _. split; [reflexivity|lia].
    - destruct (Index data cdataEnd =? -1) eqn:E; [apply Z.eqb_eq in E; lia|].
      eexists _, _. split; [reflexivity|]. change (len cdataEnd) with 3 in *. lia. }
  unfold data at 1. cbv iota.
  destruct (negb (b0 =? "<")%char) eqn:Hb.
  { unfold splitCharData.
    destruct (IndexByte_range data "<"%char) as [E|E].
    - rewrite E. simpl. eexists _, _. split; [reflexivity|lia].
    - destruct (IndexByte data "<" =? -1) eqn:E'; [apply Z.eqb_eq in E'; lia|].
      eexists _, _. split; [reflexivity|].
      apply negb_true_iff in Hb.
      pose proof (IndexByte_cons_ne b0 data' "<"%char Hb). fold data in H. lia. }
  unfold splitOther.
  destruct (splitOther_loop data data 0 nul) as [[adv tok e]|] eqn:E.
  - apply splitOther_loop_range in E as (E1 & E2 & E3); [|lia|lia].
    simpl in *. subst. eexists _, _. split; [reflexivity|lia].
  - eexists _, _. split; [reflexivity|lia].
Qed.

Lemma scanAll_Scans (fuel : nat) (data : list byte) :
  (length data < fuel)%nat ->
  exists toks, scanAll fuel data = Some toks /\ Scans data toks.
Proof.
  revert data. induction fuel as [|fuel IH]; intros data Hf; [lia|].
  destruct data as [|b0 data'].
  { exists []. split; [reflexivity|constructor]. }
  destruct (Split_atEOF_progress (b0 :: data')) as (adv & tok & HS & Hadv); [done|].
  cbn [scanAll]. rewrite HS.
  destruct (IH (from adv (b0 :: data'))) as (toks & Hs & HSc).
  { unfold from. rewrite length_drop. simpl in *. lia. }
  exists (tok :: toks). rewrite Hs. split; [reflexivity|].
  apply (Scans_token _ (length (b0 :: data')) true (Result adv (Some tok) None));
    [lia | done | by rewrite firstn_all | done | done | exact HSc].
Qed.

(** Every input can be driven to completion. *)
Lemma Scans_exists (input : list byte) : exists toks, Scans input toks.
Proof.
  destruct (scanAll_Scans (S (length input)) input) as (toks & _ & H); [lia|].
  by exists toks.
Qed.


(** ** Out-of-range access *)

(** C9, as the code has it. [Split] returns for every buffer and flag except
    the empty buffer with [atEOF] false, the one call that the contract of
    [bufio.SplitFunc] rules out. *)
Theorem Split_returns (data : list byte) (atEOF : bool) :
  data <> [] \/ atEOF = true -> exists res, Split data atEOF = Returns res.
Proof.
  intros H. unfold Split.
  destruct ((len data =? 0) && atEOF) eqn:E; [eauto|].
  destruct (HasPrefix data cdataStart); [eauto|].
  destruct data as [|b0 data'].
  - destruct H as [H | ->]; [done|]. discriminate.
  - destruct (negb (b0 =? "<")%char); eauto.
Qed.

Lemma Split_returns_witness :
  exists res, Split (bytes "<a>") false = Returns res.
Proof. apply Split_returns. left. discriminate. Defined.

(** C9, as stated, fails: on the empty buffer with [atEOF] false the
    dispatch reads [data[0]] out of range, and [Split] does not return the
    "need more data" triple. *)
Lemma Split_empty_not_at_EOF :
  Split [] false = Panics /\ Split [] false <> Returns (Result 0 None None).
Proof. split; [reflexivity | discriminate]. Qed.

(** ** The quote-aware scan *)

Lemma qmodeAfter_snoc (pre : list byte) (b : byte) :
  qmodeAfter (pre ++ [b]) = qstep (qmodeAfter pre) b.
Proof. unfold qmodeAfter. by rewrite fold_left_app. Qed.

Lemma quoteRep_step (m : qmode) (sq b : byte) :
  quoteRep m sq ->
  quoteRep (qstep m b)
    (if negb (sq =? nul)%char then (if (b =? sq)%char then nul else sq)
     else if (b =? dquote)%char || (b =? "'")%char then b else sq).
Proof.
  destruct m as [|q]; simpl.
  - intros ->. simpl.
    destruct (b =? dquote)%char eqn:E1; simpl.
    { apply Ascii.eqb_eq in E1 as ->. split; [done|discriminate]. }
    destruct (b =? "'")%char eqn:E2; simpl; [|done].
    apply Ascii.eqb_eq in E2 as ->. split; [done|discriminate].
  - intros [-> Hq]. apply Ascii.eqb_neq in Hq. rewrite Hq. simpl.
    destruct (b =? q)%char; simpl; [done|]. split; [done|by apply Ascii.eqb_neq].
Qed.

Lemma take_snoc_lookup {A} (pre rest : list A) (b : A) :
  take (length pre) (pre ++ b :: rest) = pre.
Proof. by rewrite take_app_length. Qed.

Lemma splitOther_loop_closes (data rest pre : list byte) (sq : byte) (i : nat) :
  data = pre ++ rest ->
  quoteRep (qmodeAfter pre) sq ->
  (length pre <= i)%nat ->
  closesAt data i ->
  (forall j, (length pre <= j < i)%nat -> ~ closesAt data j) ->
  splitOther_loop data rest (len pre) sq =
    Some (Result (Z.of_nat i + 1) (Some (take (S i) data)) None).
Proof.
  revert pre sq. induction rest as [|b rest IH]; intros pre sq Hd Hrep Hi Hc Hfirst.
  { rewrite app_nil_r in Hd. subst pre. destruct Hc as [Hc _].
    apply lookup_lt_Some in Hc. lia. }
  assert (Hnext : quoteRep (qmodeAfter (pre ++ [b]))
            (if negb (sq =? nul)%char then (if (b =? sq)%char then nul else sq)
             else if (b =? dquote)%char || (b =? "'")%char then b else sq)).
  { rewrite qmodeAfter_snoc. by apply quoteRep_step. }
  assert (Hd' : data = (pre ++ [b]) ++ rest) by (by rewrite <- app_assoc).
  assert (Hlen : len (pre ++ [b]) = len pre + 1).
  { unfold len. rewrite length_app. simpl. lia. }
  assert (Hhere : closesAt data (length pre) <->
                  b = ">"%char /\ qmodeAfter pre = Unquoted).
  { unfold closesAt. subst data. rewrite take_snoc_lookup.
    rewrite list_lookup_middle by done. split.
    - intros [[= ->] H]. done.
    - intros [-> H]. done. }
  destruct (decide (i = length pre)) as [->|Hne].
  - apply Hhere in Hc as [-> Hm]. rewrite Hm in Hrep. simpl in Hrep. subst sq.
    cbn. unfold upto, len.
    replace (Z.to_nat (Z.of_nat (length pre) + 1)) with (S (length pre)) by lia.
    reflexivity.
  - assert (Hnot : ~ closesAt data (length pre)) by (apply Hfirst; lia).
    rewrite Hhere in Hnot.
    specialize (IH (pre ++ [b]) _ Hd' Hnext).
    rewrite Hlen in IH. rewrite length_app in IH. simpl in IH.
    cbn [splitOther_loop].
    destruct (negb (sq =? nul)%char) eqn:E0.
    { apply IH; [lia|done|]. intros j Hj. apply Hfirst. lia. }
    destruct ((b =? dquote)%char || (b =? "'")%char) eqn:E1.
    { apply IH; [lia|done|]. intros j Hj. apply Hfirst. lia. }
    destruct (b =? ">")%char eqn:E2.
    { exfalso. apply Hnot. apply Ascii.eqb_eq in E2. split; [done|].
      apply negb_false_iff, Ascii.eqb_eq in E0. subst sq.
      destruct (qmodeAfter pre) as [|q]; [done|]. by destruct Hrep. }
    apply IH; [lia|done|]. intros j Hj. apply Hfirst. lia.
Qed.

Lemma splitOther_loop_open (data rest pre : list byte) (sq : byte) :
  data = pre ++ rest ->
  quoteRep (qmodeAfter pre) sq ->
  (forall j, (length pre <= j)%nat -> ~ closesAt data j) ->
  splitOther_loop data rest (len pre) sq = None.
Proof.
  revert pre sq. induction rest as [|b rest IH]; intros pre sq Hd Hrep Hnone;
    [reflexivity|].
  assert (Hnext : quoteRep (qmodeAfter (pre ++ [b]))
            (if negb (sq =? nul)%char then (if (b =? sq)%char then nul else sq)
             else if (b =? dquote)%char || (b =? "'")%char then b else sq)).
  { rewrite qmodeAfter_snoc. by apply quoteRep_step. }
  assert (Hd' : data = (pre ++ [b]) ++ rest) by (by rewrite <- app_assoc).
  assert (Hlen : len (pre ++ [b]) = len pre + 1).
  { unfold len. rewrite length_app. simpl. lia. }
  specialize (IH (pre ++ [b]) _ Hd' Hnext).
  rewrite Hlen in IH. rewrite length_app in IH. simpl in IH.
  assert (Hlater : forall j, (length pre + 1 <= j)%nat -> ~ closesAt data j).
  { intros j Hj. apply Hnone. lia. }
  cbn [splitOther_loop].
  destruct (negb (sq =? nul)%char) eqn:E0; [by apply IH|].
  destruct ((b =? dquote)%char || (b =? "'")%char) eqn:E1; [by apply IH|].
  destruct (b =? ">")%char eqn:E2; [|by apply IH].
  exfalso. apply (Hnone (length pre)); [lia|].
  apply Ascii.eqb_eq in E2 as ->. unfold closesAt. subst data.
  rewrite take_snoc_lookup, list_lookup_middle by done. split; [done|].
  apply negb_false_iff, Ascii.eqb_eq in E0. subst sq.
  destruct (qmodeAfter pre) as [|q]; [done|]. by destruct Hrep.
Qed.

(** C7. On a buffer that starts with [<] and not with the CDATA start
    marker, [Split] ends the token at the first [>] met in unquoted mode,
    that byte included, and advances by the token's length; a quote byte
    opens quoted mode, only the same byte closes it, and a [>] in quoted
    mode does not count. When no [>] is met in unquoted mode, the whole
    buffer is the token if [atEOF] holds, and otherwise [Split] asks for
    more data: advance 0, no token, no error. *)
Theorem Split_other_scan (data : list byte) (atEOF : bool) :
  HasPrefix data (bytes "<") = true ->
  HasPrefix data cdataStart = false ->
  (forall i : nat,
      closesAt data i ->
      (forall j : nat, (j < i)%nat -> ~ closesAt data j) ->
      Split data atEOF =
        Returns (Result (Z.of_nat i + 1) (Some (take (S i) data)) None)) /\
  ((forall j : nat, ~ closesAt data j) ->
      Split data atEOF =
        Returns (if atEOF then Result (len data) (Some data) None
                 else Result 0 None None)).
Proof.
  intros Hlt Hcd.
  destruct data as [|b0 data']; [discriminate|].
  change (bytes "<") with ["<"%char] in Hlt. cbn [HasPrefix] in Hlt.
  apply andb_true_iff in Hlt as [Hlt _].
  assert (HS : Split (b0 :: data') atEOF = Returns (splitOther (b0 :: data') atEOF)).
  { unfold Split. rewrite Hcd, Hlt. rewrite len_cons.
    replace (len data' + 1 =? 0) with false; [reflexivity|].
    symmetry. apply Z.eqb_neq. pose proof (len_nonneg data'). lia. }
  rewrite HS. unfold splitOther. split.
  - intros i Hc Hfirst.
    pose proof (splitOther_loop_closes (b0 :: data') (b0 :: data') [] nul i) as H.
    change (len []) with 0 in H. rewrite H; [done|done|done|simpl; lia|done|].
    intros j Hj. apply Hfirst. lia.
  - intros Hnone.
    pose proof (splitOther_loop_open (b0 :: data') (b0 :: data') [] nul) as H.
    change (len []) with 0 in H. rewrite H; [by destruct atEOF|done|done|].
    intros j _. apply Hnone.
Qed.

Lemma Split_other_scan_witness :
  Split (bytes "<a t='>'>z") false = Returns (Result 9 (Some (bytes "<a t='>'>")) None).
Proof.
  destruct (Split_other_scan (bytes "<a t='>'>z") false eq_refl eq_refl) as [H _].
  apply (H 8%nat).
  - split; reflexivity.
  - intros j Hj [H1 H2].
    do 8 (destruct j as [|j]; [discriminate|]). lia.
Defined.

(** * Properties of the tokenizer *)

Import Lexer LexSpec.

Lemma append_cons (a : byte) (s x : string) :
  (String a s +:+ x)%string = String a (s +:+ x)%string.
Proof. reflexivity. Qed.

Lemma WriteByte_str (s : string) (c : byte) (l : list byte) :
  (WriteByte s c +:+ str l = s +:+ str (c :: l))%string.
Proof.
  unfold WriteByte, str. induction s as [|a s IH]; [reflexivity|].
  rewrite !append_cons. by rewrite IH.
Qed.

Lemma append_empty_r (s : string) : (s +:+ EmptyString)%string = s.
Proof. induction s as [|a s IH]; [done|]. rewrite append_cons. by rewrite IH. Qed.

(** ** Name decoding *)

Section LexerFacts.

Variable isNameByte : byte -> bool.

Lemma decodeName_loop_second pfx fin body term rest space rawFirst rawSecond :
  forallb isNameByte body = true -> isNameByte term = false ->
  decodeName_loop isNameByte pfx fin (body ++ term :: rest) space true rawFirst rawSecond =
    ((mkName (walkPrefixes (reverse pfx) rawFirst)
        (rawSecond +:+ str (List.filter (fun c => negb (isColon c)) body)),
      term, false, None), rest).
Proof.
  intros Hb Ht. revert rawSecond.
  induction body as [|c body IH]; intros rawSecond.
  - simpl. rewrite Ht. simpl. by rewrite append_empty_r.
  - simpl in Hb. apply andb_true_iff in Hb as [Hc Hb].
    cbn [app decodeName_loop]. rewrite Hc. cbn [negb].
    cbn [List.filter]. unfold isColon at 1.
    destruct (c =? ":")%char eqn:E; cbn [negb].
    + by apply IH.
    + rewrite IH by done. by rewrite WriteByte_str.
Qed.

Lemma decodeName_loop_first pfx fin body term rest space rawFirst :
  forallb isNameByte body = true -> isNameByte term = false ->
  decodeName_loop isNameByte pfx fin (body ++ term :: rest) space false rawFirst EmptyString =
    ((match afterColon body with
      | Some l => mkName (walkPrefixes (reverse pfx) (rawFirst +:+ str (beforeColon body))) (str l)
      | None => mkName space (rawFirst +:+ str body)
      end,
      term,
      match afterColon body with
      | Some _ => false
      | None => negb (space =? EmptyString)%string
      end, None), rest).
Proof.
  intros Hb Ht. revert rawFirst.
  induction body as [|c body IH]; intros rawFirst.
  - simpl. rewrite Ht. simpl. by rewrite append_empty_r.
  - simpl in Hb. apply andb_true_iff in Hb as [Hc Hb].
    cbn [app decodeName_loop afterColon beforeColon]. rewrite Hc. cbn [negb].
    unfold isColon. destruct (c =? ":")%char eqn:E.
    + rewrite decodeName_loop_second by done. simpl. by rewrite append_empty_r.
    + rewrite IH by done. rewrite !WriteByte_str.
      destruct (afterColon body); reflexivity.
Qed.

(** What [decodeName] returns on a name that is followed by a byte that
    ends it. *)
Lemma decodeName_denotes (t : Tokenizer) (b : byte) (attr : bool)
    (body : list byte) (term : byte) (rest : list byte) :
  input (r t) = body ++ term :: rest ->
  forallb isNameByte body = true -> isNameByte term = false ->
  let first := if negb (b =? nul)%char then String b EmptyString else EmptyString in
  decodeName isNameByte t b attr =
    ((denotes t attr first body, term,
      match afterColon body with
      | Some _ => false
      | None => negb attr &&
                negb (walkSpaces (reverse (spaces t)) EmptyString =? EmptyString)%string
      end, None),
     setInput t rest).
Proof.
  intros Hin Hb Ht first. unfold decodeName. rewrite Hin.
  change (WriteByte EmptyString b) with (String b EmptyString). fold first.
  rewrite decodeName_loop_first by done. unfold denotes.
  destruct (afterColon body); [reflexivity|].
  destruct attr; reflexivity.
Qed.


Lemma ReadByte_cons (t : Tokenizer) (b : byte) (rest : list byte) :
  input (r t) = b :: rest -> ReadByte t = (inl b, setInput t rest).
Proof. unfold ReadByte. by intros ->. Qed.

Lemma ReadByte_nil (t : Tokenizer) :
  input (r t) = [] -> ReadByte t = (inr (final (r t)), t).
Proof. unfold ReadByte. by intros ->. Qed.

(** The first two bytes that [Token] looks at, when no end element is
    pending and the bytes to interpret start with [<] and [b]. *)
Lemma Token_open (t : Tokenizer) (b : byte) (rest : list byte) :
  selfClose t = None -> pending t = "<"%char :: b :: rest ->
  Token isNameByte t =
    let t2 := setInput (setFoundStart t false) rest in
    if (b =? "!")%char then
      match ReadByte t2 with
      | (inr e, t3) => Some ((None, Some (early e)), t3)
      | (inl b, t3) =>
          if (b =? "-")%char then
            match ReadByte t3 with
            | (inr e, t4) => Some ((None, Some (early e)), t4)
            | (inl b', t4) =>
                if (b' =? "-")%char then
                  let '((data, e), t5) := decodeComment t4 (Some []) in
                  Some ((Some (Comment data), e), t5)
                else
                  Some ((None,
                         Some (SyntaxError
                           "invalid sequence <!- not part of <!--")), t4)
            end
          else
            let '((data, e), t4) := decodeDirective t3 (Some [b]) in
            Some ((Some (Directive data), e), t4)
      end
    else if (b =? "?")%char then
      match decodeProcInst t2 None with
      | ((_, Some e), t3) => Some ((None, Some e), t3)
      | (((target, inst), None), t3) =>
          Some ((Some (ProcInst target inst), None), t3)
      end
    else if (b =? "/")%char then
      let '((name, e), t3) := decodeEndElement isNameByte t2 in
      Some ((Some (EndElement name), e), t3)
    else
      match decodeStartElement isNameByte t2 b with
      | Some (((name, attr), e), t3) =>
          Some ((Some (StartElement name attr), e), t3)
      | None => None
      end.
Proof.
  destruct t as [[inp fin] fs sc pfx sp]. unfold pending. simpl.
  intros -> Hp. unfold Token. cbn [selfClose foundStart].
  destruct fs.
  - injection Hp as ->. reflexivity.
  - subst inp. reflexivity.
Qed.


(** C10. An end tag met while both namespace stacks are empty is returned
    as an EndElement with the decoded name and no error, and both stacks are
    still empty afterwards: the pops are guarded by the stack lengths. *)
Theorem end_tag_on_empty_stacks (t : Tokenizer) (X : list byte) (term : byte)
    (rest : list byte) :
  selfClose t = None ->
  pending t = "<"%char :: "/"%char :: X ++ term :: rest ->
  forallb isNameByte X = true -> isNameByte term = false ->
  prefixes t = [] -> spaces t = [] ->
  exists t',
    Token isNameByte t =
      Some ((Some (EndElement
                     match afterColon X with
                     | Some l => mkName (str (beforeColon X)) (str l)
                     | None => mkName EmptyString (str X)
                     end), None), t') /\
    prefixes t' = [] /\ spaces t' = [] /\ input (r t') = rest /\
    foundStart t' = false /\ selfClose t' = None.
Proof.
  intros Hsc Hp HX Hterm Hpfx Hsp.
  rewrite (Token_open t _ _ Hsc Hp). cbn zeta.
  change ("/" =? "!")%char with false. change ("/" =? "?")%char with false.
  change ("/" =? "/")%char with true. cbv iota.
  unfold decodeEndElement.
  rewrite (decodeName_denotes _ nul false X term rest) by done.
  cbn zeta. unfold denotes, popStacks.
  destruct t as [[inp fin] fs sc pfx sp]. simpl in Hsc, Hpfx, Hsp. subst.
  cbn. eexists. split.
  - destruct (afterColon X); reflexivity.
  - done.
Qed.


(** White space between the name or an attribute and the next separator is
    read away, one byte a turn. *)
Lemma loop_skip_spaces (ws : list byte) (k : nat) (t : Tokenizer) (name : Name)
    (sep : byte) (def : bool) (attr : slice Attr) (c : byte) (rest : list byte) :
  isSpace sep = true -> forallb isSpace ws = true ->
  input (r t) = ws ++ c :: rest ->
  decodeStartElement_loop isNameByte (S (length ws) + k) t name sep def attr =
    decodeStartElement_loop isNameByte k (setInput t rest) name c def attr.
Proof.
  revert t sep. induction ws as [|w ws IH]; intros t sep Hsep Hws Hin.
  - cbn [length Nat.add decodeStartElement_loop]. rewrite Hsep.
    by rewrite (ReadByte_cons t c rest Hin).
  - cbn [forallb] in Hws. apply andb_true_iff in Hws as [Hw Hws].
    cbn [length Nat.add decodeStartElement_loop]. rewrite Hsep.
    rewrite (ReadByte_cons t w (ws ++ c :: rest) Hin).
    apply (IH (setInput t (ws ++ c :: rest)) w Hw Hws). reflexivity.
Qed.

(** C5. A self-closing tag [<X/>], with or without white space before the
    [/>], gives one StartElement named X whose attribute list is empty and
    not nil; the next call gives the EndElement of the same name and reads
    nothing from the reader. That call uses up the pending name: after it
    nothing is pending, so the EndElement comes exactly once. *)
Theorem self_close_law (t : Tokenizer) (b : byte) (X ws rest : list byte) :
  selfClose t = None ->
  pending t = "<"%char :: b :: X ++ ws ++ "/"%char :: ">"%char :: rest ->
  b <> "!"%char -> b <> "?"%char -> b <> "/"%char -> b <> nul ->
  forallb isNameByte X = true -> isNameByte "/"%char = false ->
  forallb isSpace ws = true ->
  forallb (fun c => negb (isNameByte c)) ws = true ->
  let name := denotes (pushed t) false (String b EmptyString) X in
  exists t1 t2,
    Token isNameByte t = Some ((Some (StartElement name (Some [])), None), t1) /\
    Token isNameByte t1 = Some ((Some (EndElement name), None), t2) /\
    input (r t1) = rest /\ r t2 = r t1 /\
    selfClose t1 = Some name /\ foundStart t1 = false /\
    selfClose t2 = None /\ foundStart t2 = false /\
    prefixes t2 = prefixes t1 /\ spaces t2 = spaces t1.
Proof.
  intros Hsc Hp Hb1 Hb2 Hb3 Hb0 HX Hslash Hws Hwn name.
  rewrite (Token_open t _ _ Hsc Hp). cbn zeta.
  apply Ascii.eqb_neq in Hb1, Hb2, Hb3, Hb0. rewrite Hb1, Hb2, Hb3.
  unfold decodeStartElement.
  destruct ws as [|w ws].
  - rewrite (decodeName_denotes _ b false X "/"%char (">"%char :: rest)) by done.
    rewrite Hb0. cbn [negb]. cbn zeta.
    destruct (afterColon X) as [l|] eqn:HaC;
      destruct t as [[inp fin] fs sc pfx sp]; cbn;
      (eexists _, _; split; [reflexivity|]; cbn; done).
  - cbn [forallb] in Hws, Hwn.
    apply andb_true_iff in Hws as [Hw Hws].
    apply andb_true_iff in Hwn as [Hwn _]. apply negb_true_iff in Hwn.
    rewrite (decodeName_denotes _ b false X w
               (ws ++ "/"%char :: ">"%char :: rest)) by done.
    rewrite Hb0. cbn [negb]. cbn zeta.
    match goal with
    | |- context [decodeStartElement_loop _ ?fuel ?t1 ?nm w ?def (Some [])] =>
        replace fuel with (S (length ws) + S (S (length rest)))%nat
          by (cbn [setInput r input]; rewrite length_app; cbn [length]; lia);
        rewrite (loop_skip_spaces ws (S (S (length rest))) t1 nm w def (Some [])
                   "/"%char (">"%char :: rest) Hw Hws eq_refl)
    end.
    destruct (afterColon X) as [l|] eqn:HaC;
      destruct t as [[inp fin] fs sc pfx sp]; cbn;
      (eexists _, _; split; [reflexivity|]; cbn; done).
Qed.


(** C6, what the code does. A processing instruction that closes right
    after [<?] is returned as a ProcInst with an empty target, and no error. *)
Theorem empty_target_accepted (t : Tokenizer) (rest : list byte) :
  selfClose t = None ->
  pending t = bytes "<??>" ++ rest ->
  exists t',
    Token isNameByte t = Some ((Some (ProcInst EmptyString None), None), t') /\
    input (r t') = rest.
Proof.
  intros Hsc Hp. rewrite (Token_open t "?"%char ("?"%char :: ">"%char :: rest) Hsc Hp).
  destruct t as [[inp fin] fs sc pfx sp]. cbn. eauto.
Qed.

(** A pending end element is returned without touching the reader or the
    namespace stacks. *)
Lemma Token_pending_end (t : Tokenizer) (name : Name) :
  selfClose t = Some name ->
  Token isNameByte t = Some ((Some (EndElement name), None), setSelfClose t None).
Proof. unfold Token. by intros ->. Qed.

Lemma walkPrefixes_unbound (down : list (gmap string string)) (space : string) :
  (forall m, m ∈ down -> mapGet m space = EmptyString) ->
  walkPrefixes down space = space.
Proof.
  induction down as [|m down IH]; intros H; [reflexivity|].
  cbn [walkPrefixes]. rewrite (H m) by constructor. cbn.
  apply IH. intros m' Hm'. apply H. by constructor.
Qed.

Lemma beforeColon_app (P L : list byte) :
  forallb (fun c => negb (isColon c)) P = true ->
  beforeColon (P ++ ":"%char :: L) = P.
Proof.
  induction P as [|c P IH]; intros H; [reflexivity|].
  simpl in H. apply andb_true_iff in H as [Hc H].
  cbn [app beforeColon]. apply negb_true_iff in Hc. rewrite Hc. by rewrite IH.
Qed.

Lemma afterColon_app (P L : list byte) :
  forallb (fun c => negb (isColon c)) P = true ->
  afterColon (P ++ ":"%char :: L) = Some (List.filter (fun c => negb (isColon c)) L).
Proof.
  induction P as [|c P IH]; intros H; [reflexivity|].
  simpl in H. apply andb_true_iff in H as [Hc H].
  cbn [app afterColon]. apply negb_true_iff in Hc. rewrite Hc. by rewrite IH.
Qed.

Lemma filter_all {A} (f : A -> bool) (l : list A) :
  forallb f l = true -> List.filter f l = l.
Proof.
  induction l as [|x l IH]; intros H; [reflexivity|].
  simpl in H. apply andb_true_iff in H as [Hx H]. simpl. rewrite Hx. by rewrite IH.
Qed.

(** C3, as the code has it. A prefixed name whose prefix has no non-empty
    binding on the prefix stack keeps the prefix itself as its Space, for
    element names and for attribute names alike. *)
Theorem unbound_prefix_is_kept (t : Tokenizer) (b : byte) (attr : bool)
    (P L : list byte) (term : byte) (rest : list byte) :
  input (r t) = P ++ ":"%char :: L ++ term :: rest ->
  forallb isNameByte P = true -> forallb (fun c => negb (isColon c)) P = true ->
  forallb isNameByte L = true -> forallb (fun c => negb (isColon c)) L = true ->
  isNameByte ":"%char = true -> isNameByte term = false ->
  let prefix :=
    ((if negb (b =? nul)%char then String b EmptyString else EmptyString)
       +:+ str P)%string in
  (forall m, m ∈ prefixes t -> mapGet m prefix = EmptyString) ->
  decodeName isNameByte t b attr =
    ((mkName prefix (str L), term, false, None), setInput t rest).
Proof.
  intros Hin HP HPc HL HLc Hcolon Hterm prefix Hunbound.
  rewrite (decodeName_denotes t b attr (P ++ ":"%char :: L) term rest); try done.
  - unfold denotes. rewrite afterColon_app, beforeColon_app by done.
    rewrite filter_all by done. fold prefix.
    rewrite walkPrefixes_unbound; [done|].
    intros m Hm. apply Hunbound. by apply elem_of_reverse.
  - rewrite Hin. by rewrite <- app_assoc.
  - rewrite forallb_app. rewrite HP. simpl. by rewrite Hcolon, HL.
Qed.

End LexerFacts.


Lemma end_tag_on_empty_stacks_witness :
  exists t',
    Token isNameByte (NewTokenizer (bytes "</a>")) =
      Some ((Some (EndElement (mkName EmptyString "a")), None), t') /\
    prefixes t' = [] /\ spaces t' = [] /\ input (r t') = [] /\
    foundStart t' = false /\ selfClose t' = None.
Proof.
  exact (end_tag_on_empty_stacks isNameByte (NewTokenizer (bytes "</a>"))
           (bytes "a") ">"%char [] eq_refl eq_refl eq_refl eq_refl eq_refl eq_refl).
Defined.

Lemma self_close_law_witness :
  exists t1 t2,
    Token isNameByte (NewTokenizer (bytes "<bar " ++ ["010"%char; "009"%char] ++ bytes "/>z")) =
      Some ((Some (StartElement (mkName EmptyString "bar") (Some [])), None), t1) /\
    Token isNameByte t1 = Some ((Some (EndElement (mkName EmptyString "bar")), None), t2) /\
    input (r t1) = bytes "z" /\ r t2 = r t1 /\
    selfClose t1 = Some (mkName EmptyString "bar") /\ foundStart t1 = false /\
    selfClose t2 = None /\ foundStart t2 = false /\
    prefixes t2 = prefixes t1 /\ spaces t2 = spaces t1.
Proof.
  apply (self_close_law isNameByte
           (NewTokenizer (bytes "<bar " ++ ["010"%char; "009"%char] ++ bytes "/>z"))
           "b"%char (bytes "ar") (" "%char :: ["010"%char; "009"%char]) (bytes "z"));
    solve [reflexivity | discriminate].
Defined.

Lemma empty_target_accepted_witness :
  exists t',
    Token isNameByte (NewTokenizer (bytes "<??>")) =
      Some ((Some (ProcInst EmptyString None), None), t') /\
    input (r t') = [].
Proof.
  exact (empty_target_accepted isNameByte (NewTokenizer (bytes "<??>")) [] eq_refl eq_refl).
Defined.

Lemma unbound_prefix_is_kept_witness :
  let t := mkTokenizer (mkReader (bytes "g:test='yes'>") EOF) false None
             [{["h" := "hi"]}] ["u"] in
  decodeName isNameByte t nul true =
    ((mkName "g" "test", "="%char, false, None), setInput t (bytes "'yes'>")).
Proof.
  intros t.
  apply (unbound_prefix_is_kept isNameByte t nul true (bytes "g") (bytes "test")
           "="%char (bytes "'yes'>")); try reflexivity.
  intros m Hm. apply list_elem_of_singleton in Hm. subst m. reflexivity.
Defined.

(** C3, as stated, fails: on [baz] the attribute [g:test], whose prefix is
    not declared, has Space [g], not the empty string. *)
Lemma undeclared_attr_prefix_not_empty :
  exists name a0 a1 t',
    Token isNameByte (NewTokenizer scenario5) =
      Some ((Some (StartElement name (Some [a0; a1])), None), t') /\
    AName a1 = mkName "g" "test" /\ Space (AName a1) <> EmptyString.
Proof.
  eexists _, _, _, _. split; [vm_compute; reflexivity|]. split; [reflexivity|discriminate].
Qed.

(** C1, what the code does. After the StartElement and the EndElement of
    [<a/>] both namespace stacks still hold the entry that the start element
    pushed: the end element made up for a self-closing tag pops nothing. *)
Theorem self_close_end_does_not_pop :
  exists t2,
    tokens isNameByte 2 (NewTokenizer (bytes "<a/>")) =
      ([(Some (StartElement (mkName EmptyString "a") (Some [])), None);
        (Some (EndElement (mkName EmptyString "a")), None)], Some t2) /\
    length (prefixes t2) = 1%nat /\ length (spaces t2) = 1%nat.
Proof. eexists. split; [vm_compute; reflexivity|]. split; reflexivity. Qed.


(** C2, what the code does. End of input inside character data, a name,
    an attribute value, a comment, a directive or a processing instruction
    comes back as [io.EOF] itself, not as the syntax error "early EOF". *)
Theorem eof_inside_token_is_plain_EOF :
  firstResult (bytes "abc") = Some (Some (CharData None), Some EOF) /\
  firstResult (bytes "<a") = Some (Some (StartElement Name0 None), Some EOF) /\
  firstResult (bytes "<a b='c") = Some (Some (StartElement Name0 None), Some EOF) /\
  firstResult (bytes "<!--c") = Some (Some (Comment None), Some EOF) /\
  firstResult (bytes "<!d") = Some (Some (Directive None), Some EOF) /\
  firstResult (bytes "<?p") = Some (None, Some EOF).
Proof. repeat split; vm_compute; reflexivity. Qed.

(** C4, what the code does. The dash counter is a [uint8]: a run of 256
    dashes inside a comment brings it back to 0, and none of them reaches
    the Comment. *)
Theorem long_dash_run_is_lost :
  firstResult (bytes "<!--" ++ replicate 256 "-"%char ++ bytes "a-->") =
    Some (Some (Comment (Some (bytes "a"))), None).
Proof. vm_compute. reflexivity. Qed.

(** * More on the splitter *)

(** ** What the splitter emits *)

(** Every token that [Split] emits is a prefix of the buffer, the advance is
    its length, and no error comes with it. *)
Theorem Split_emits_prefix (data : list byte) (atEOF : bool) (res : result)
    (tok : list byte) :
  Split data atEOF = Returns res -> token res = Some tok ->
  exists rest, data = tok ++ rest /\ advance res = len tok /\ err res = None.
Proof.
  intros HS Htok.
  destruct (Split_token_prefix _ _ _ _ HS Htok) as (He & _ & Ht & Ha).
  exists (from (advance res) data). split; [|done].
  subst tok. unfold upto, from. symmetry. apply take_drop.
Qed.

Lemma Split_emits_prefix_witness :
  exists rest, bytes "<a>text" = bytes "<a>" ++ rest /\
               advance (Result 3 (Some (bytes "<a>")) None) = len (bytes "<a>") /\
               err (Result 3 (Some (bytes "<a>")) None) = None.
Proof.
  exact (Split_emits_prefix (bytes "<a>text") false
           (Result 3 (Some (bytes "<a>")) None) (bytes "<a>") eq_refl eq_refl).
Defined.

(** At end of input a buffer that is not empty always yields a token that
    is not empty: the scanner cannot stall. *)
Theorem Split_at_EOF_emits (data : list byte) :
  data <> [] ->
  exists tok, Split data true = Returns (Result (len tok) (Some tok) None) /\
              tok <> [].
Proof.
  intros Hne. destruct (Split_atEOF_progress data Hne) as (adv & tok & HS & Hadv).
  destruct (Split_token_prefix _ _ _ _ HS eq_refl) as (_ & _ & _ & Ha).
  simpl in Ha. subst adv. exists tok. split; [done|].
  intros ->. change (len []) with 0 in Hadv. lia.
Qed.

Lemma Split_at_EOF_emits_witness :
  exists tok, Split (bytes "<a") true = Returns (Result (len tok) (Some tok) None) /\
              tok <> [].
Proof. apply Split_at_EOF_emits. discriminate. Defined.

(** ** Models of [bytes.HasPrefix], [bytes.Index] and [bytes.IndexByte] *)

Lemma HasPrefix_nil (s : list byte) : HasPrefix s [] = true.
Proof. by destruct s. Qed.

Lemma HasPrefix_app (pre rest : list byte) : HasPrefix (pre ++ rest) pre = true.
Proof.
  induction pre as [|p pre IH]; [apply HasPrefix_nil|].
  cbn [app HasPrefix]. by rewrite Ascii.eqb_refl, IH.
Qed.

Lemma HasPrefix_inv (s pre : list byte) :
  HasPrefix s pre = true -> exists rest, s = pre ++ rest.
Proof.
  revert s. induction pre as [|p pre IH]; intros s H; [by exists s|].
  destruct s as [|b s]; [discriminate|]. cbn [HasPrefix] in H.
  apply andb_true_iff in H as [Hb H]. apply Ascii.eqb_eq in Hb as ->.
  destruct (IH s H) as [rest ->]. by exists rest.
Qed.

Lemma HasPrefix_more (s pre more : list byte) :
  len pre <= len s -> HasPrefix (s ++ more) pre = HasPrefix s pre.
Proof.
  revert s. induction pre as [|p pre IH]; intros s H; [by rewrite !HasPrefix_nil|].
  destruct s as [|b s].
  - rewrite len_cons in H. change (len []) with 0 in H. pose proof (len_nonneg pre). lia.
  - cbn [app HasPrefix]. rewrite IH; [done|]. rewrite !len_cons in H. lia.
Qed.

Lemma Index_cons (b : byte) (s sep : list byte) :
  Index (b :: s) sep =
    if HasPrefix (b :: s) sep then 0
    else if Index s sep =? -1 then -1 else Index s sep + 1.
Proof. reflexivity. Qed.

Lemma Index_more (s sep more : list byte) :
  Index s sep <> -1 -> Index (s ++ more) sep = Index s sep.
Proof.
  induction s as [|b s IH]; intros H.
  - cbn [Index] in *. destruct (HasPrefix [] sep) eqn:E; [|done].
    destruct sep; [|discriminate]. cbn [app]. destruct more; reflexivity.
  - rewrite Index_cons in H.
    change ((b :: s) ++ more) with (b :: (s ++ more)). rewrite !Index_cons.
    change (b :: (s ++ more)) with ((b :: s) ++ more).
    destruct (HasPrefix (b :: s) sep) eqn:E.
    + rewrite HasPrefix_more by (by apply HasPrefix_len). by rewrite E.
    + destruct (Index s sep =? -1) eqn:E1; [done|].
      assert (E1' : Index s sep <> -1) by (by apply Z.eqb_neq).
      rewrite IH by done.
      destruct (Index_range s sep) as [E2|[E2 E3]]; [done|].
      rewrite HasPrefix_more by (rewrite len_cons; lia). by rewrite E, E1.
Qed.

Lemma IndexByte_more (s more : list byte) (c : byte) :
  IndexByte s c <> -1 -> IndexByte (s ++ more) c = IndexByte s c.
Proof.
  induction s as [|b s IH]; intros H; [done|].
  cbn [IndexByte] in H. cbn [app IndexByte].
  destruct (b =? c)%char; [done|].
  destruct (IndexByte s c =? -1) eqn:E1; [done|].
  apply Z.eqb_neq in E1. rewrite IH by done. apply Z.eqb_neq in E1. by rewrite E1.
Qed.

Lemma IndexByte_split (s : list byte) (c : byte) :
  IndexByte s c <> -1 ->
  s = upto (IndexByte s c) s ++ c :: from (IndexByte s c + 1) s /\
  c ∉ upto (IndexByte s c) s.
Proof.
  induction s as [|b s IH]; intros H; [done|].
  cbn [IndexByte] in *. destruct (b =? c)%char eqn:Eb.
  - apply Ascii.eqb_eq in Eb as ->. cbn. split; [done|]. apply not_elem_of_nil.
  - destruct (IndexByte s c =? -1) eqn:E1; [done|]. apply Z.eqb_neq in E1.
    destruct (IH E1) as [IH1 IH2].
    destruct (IndexByte_range s c) as [?|Hr]; [done|].
    rewrite upto_succ_cons by lia. unfold from.
    replace (Z.to_nat (IndexByte s c + 1 + 1)) with (S (Z.to_nat (IndexByte s c + 1))) by lia.
    cbn [drop app]. split.
    + f_equal. exact IH1.
    + rewrite not_elem_of_cons. split; [|done]. intros ->. by rewrite Ascii.eqb_refl in Eb.
Qed.

Lemma IndexByte_absent (s : list byte) (c : byte) :
  IndexByte s c = -1 -> c ∉ s.
Proof.
  induction s as [|b s IH]; intros H; [apply not_elem_of_nil|].
  cbn [IndexByte] in H. destruct (b =? c)%char eqn:Eb; [discriminate|].
  destruct (IndexByte s c =? -1) eqn:E1.
  - apply Z.eqb_eq in E1. rewrite not_elem_of_cons. split; [|by apply IH].
    intros ->. by rewrite Ascii.eqb_refl in Eb.
  - destruct (IndexByte_range s c) as [?|Hr]; [apply Z.eqb_neq in E1; done|lia].
Qed.

(** ** Framing does not depend on what comes later *)

Lemma upto_app_le {A} (n : Z) (l more : list A) :
  0 <= n <= len l -> upto n (l ++ more) = upto n l.
Proof. unfold upto, len. intros H. apply take_app_le. lia. Qed.

Lemma splitOther_loop_more (data rest more : list byte) (i : Z) (q : byte)
    (res : result) :
  0 <= i -> i + len rest <= len data ->
  splitOther_loop data rest i q = Some res ->
  splitOther_loop (data ++ more) (rest ++ more) i q = Some res.
Proof.
  revert i q. induction rest as [|b rest IH]; intros i q Hi Hle H; [discriminate|].
  rewrite len_cons in Hle. pose proof (len_nonneg rest).
  cbn [app splitOther_loop] in *.
  repeat match type of H with
  | (if ?c then _ else _) = _ => destruct c
  end; try (apply IH; [lia|lia|exact H]).
  injection H as <-. rewrite upto_app_le by lia. reflexivity.
Qed.

Lemma HasPrefix_partial (data pre more : list byte) :
  HasPrefix (data ++ more) pre = true -> HasPrefix data pre = false ->
  exists k, (k < length pre)%nat /\ data = take k pre.
Proof.
  revert data. induction pre as [|p pre IH]; intros data H1 H2.
  - by rewrite HasPrefix_nil in H2.
  - destruct data as [|b data].
    + exists 0%nat. split; [simpl; lia|reflexivity].
    + cbn [app HasPrefix] in H1, H2.
      apply andb_true_iff in H1 as [Hb H1]. rewrite Hb in H2. cbn in H2.
      destruct (IH data H1 H2) as (k & Hk & ->).
      apply Ascii.eqb_eq in Hb as ->.
      exists (S k). split; [simpl; lia|reflexivity].
Qed.

(** A buffer that is a proper part of the CDATA start marker never yields
    a token before end of input. *)
Lemma Split_partial_marker (k : nat) (res : result) :
  (k < length cdataStart)%nat ->
  Split (take k cdataStart) false = Returns res -> token res = None.
Proof.
  intros Hk.
  do 9 (destruct k as [|k]; [intros [= <-] || discriminate; reflexivity|]).
  simpl in Hk. lia.
Qed.

(** Once [Split] has emitted a token from a buffer that could still grow,
    it emits the same token, with the same advance, from any longer buffer:
    a token boundary never depends on the bytes after it. *)
Theorem Split_stable (data more : list byte) (atEOF : bool) (res : result)
    (tok : list byte) :
  Split data false = Returns res -> token res = Some tok ->
  Split (data ++ more) atEOF = Returns res.
Proof.
  intros HS Htok.
  destruct data as [|b0 data']; [discriminate|].
  set (data := b0 :: data') in *.
  assert (Hlen : 0 < len data) by (unfold data; rewrite len_cons; pose proof (len_nonneg data'); lia).
  assert (Hlen' : (len (data ++ more) =? 0) = false).
  { apply Z.eqb_neq. unfold len in *. rewrite length_app. lia. }
  unfold Split in *. rewrite Hlen'. cbn [andb].
  replace (len data =? 0) with false in HS by (symmetry; apply Z.eqb_neq; lia).
  cbn [andb] in HS.
  destruct (HasPrefix data cdataStart) eqn:Hpre.
  - rewrite HasPrefix_more by (by apply HasPrefix_len). rewrite Hpre.
    injection HS as <-. f_equal. unfold splitCData in *.
    destruct (Index data cdataEnd =? -1) eqn:E; [discriminate|].
    apply Z.eqb_neq in E.
    destruct (Index_range data cdataEnd) as [?|[E1 E2]]; [done|].
    rewrite Index_more by done. apply Z.eqb_neq in E. rewrite E.
    pose proof (len_nonneg cdataEnd). by rewrite upto_app_le by lia.
  - destruct (HasPrefix (data ++ more) cdataStart) eqn:Hpre'.
    { destruct (HasPrefix_partial _ _ _ Hpre' Hpre) as (k & Hk & Hd).
      assert (HS' : Split data false = Returns res).
      { unfold Split. rewrite Hpre.
        replace (len data =? 0) with false by (symmetry; apply Z.eqb_neq; lia).
        exact HS. }
      rewrite Hd in HS'. apply Split_partial_marker in HS'; [|done]. congruence. }
    unfold data in HS |- *. cbn [app]. cbv iota in HS |- *.
    destruct (negb (b0 =? "<")%char).
    + injection HS as <-. f_equal. unfold splitCharData in *.
      change (b0 :: data' ++ more) with (data ++ more). fold data in Htok |- *.
      destruct (IndexByte data "<" =? -1) eqn:E; [discriminate|].
      apply Z.eqb_neq in E.
      destruct (IndexByte_range data "<"%char) as [?|E1]; [done|].
      rewrite IndexByte_more by done. apply Z.eqb_neq in E. rewrite E.
      by rewrite upto_app_le by lia.
    + injection HS as <-. f_equal. unfold splitOther in *.
      change (b0 :: data' ++ more) with (data ++ more). fold data in Htok |- *.
      destruct (splitOther_loop data data 0 nul) as [r|] eqn:E; [|discriminate].
      rewrite (splitOther_loop_more data data more 0 nul r); [done|lia|lia|done].
Qed.

Lemma Split_stable_witness :
  Split (bytes "<a>" ++ bytes "text</a>") true =
    Returns (Result 3 (Some (bytes "<a>")) None).
Proof.
  exact (Split_stable (bytes "<a>") (bytes "text</a>") true
           (Result 3 (Some (bytes "<a>")) None) (bytes "<a>") eq_refl eq_refl).
Defined.

(** ** CDATA sections and character data *)

Lemma Index_first (body sep rest : list byte) :
  (forall j, (j < length body)%nat ->
             HasPrefix (drop j (body ++ sep ++ rest)) sep = false) ->
  Index (body ++ sep ++ rest) sep = len body.
Proof.
  induction body as [|b body IH]; intros H.
  - cbn [app]. pose proof (HasPrefix_app sep rest) as Hp.
    destruct (sep ++ rest) as [|c l] eqn:E; cbn [Index]; by rewrite Hp.
  - change ((b :: body) ++ sep ++ rest) with (b :: (body ++ sep ++ rest)).
    rewrite Index_cons.
    pose proof (H 0%nat ltac:(simpl; lia)) as H0. cbn [drop app] in H0.
    rewrite H0. rewrite IH.
    + rewrite len_cons. pose proof (len_nonneg body).
      destruct (len body =? -1) eqn:E; [apply Z.eqb_eq in E; lia|done].
    + intros j Hj. apply (H (S j)). simpl. lia.
Qed.

(** A buffer that starts with the CDATA start marker is cut right after
    the first [cdataEnd], whatever bytes the section holds. *)
Theorem Split_cdata (body rest : list byte) (atEOF : bool) :
  HasPrefix body cdataStart = true ->
  (forall j, (j < length body)%nat ->
             HasPrefix (drop j (body ++ cdataEnd ++ rest)) cdataEnd = false) ->
  Split (body ++ cdataEnd ++ rest) atEOF =
    Returns (Result (len (body ++ cdataEnd)) (Some (body ++ cdataEnd)) None).
Proof.
  intros Hpre Hfirst. unfold Split.
  assert (Hl : len (body ++ cdataEnd ++ rest) = len body + 3 + len rest).
  { unfold len. rewrite !length_app. simpl. lia. }
  pose proof (len_nonneg body). pose proof (len_nonneg rest).
  replace (len (body ++ cdataEnd ++ rest) =? 0) with false
    by (symmetry; apply Z.eqb_neq; lia).
  cbn [andb].
  rewrite HasPrefix_more by (by apply HasPrefix_len). rewrite Hpre.
  unfold splitCData. rewrite Index_first by done.
  replace (len body =? -1) with false by (symmetry; apply Z.eqb_neq; lia).
  assert (Hl2 : len (body ++ cdataEnd) = len body + len cdataEnd).
  { unfold len. rewrite length_app. lia. }
  rewrite <- Hl2. rewrite app_assoc. pose proof (len_nonneg (body ++ cdataEnd)).
  rewrite upto_app_le by lia. by rewrite upto_len.
Qed.

Lemma Split_cdata_witness :
  Split (bytes "<![CDATA[ ..>. " ++ cdataEnd ++ bytes "<a>") false =
    Returns (Result 18 (Some (bytes "<![CDATA[ ..>. ]]>")) None).
Proof.
  apply (Split_cdata (bytes "<![CDATA[ ..>. ") (bytes "<a>") false); [reflexivity|].
  intros j Hj. do 15 (destruct j as [|j]; [reflexivity|]). simpl in Hj. lia.
Defined.

(** A buffer that does not start with [<] yields the bytes before the first
    [<], and that [<] is left in the buffer; without any [<], it yields
    everything at end of input and asks for more data otherwise. *)
Theorem Split_chardata (b0 : byte) (data' : list byte) (atEOF : bool) :
  b0 <> "<"%char ->
  (forall text rest, b0 :: data' = text ++ "<"%char :: rest -> "<"%char ∉ text ->
     Split (b0 :: data') atEOF = Returns (Result (len text) (Some text) None)) /\
  ("<"%char ∉ data' ->
     Split (b0 :: data') atEOF =
       Returns (if atEOF then Result (len (b0 :: data')) (Some (b0 :: data')) None
                else Result 0 None None)).
Proof.
  intros Hb0. apply Ascii.eqb_neq in Hb0.
  assert (HS : Split (b0 :: data') atEOF = Returns (splitCharData (b0 :: data') atEOF)).
  { unfold Split. rewrite len_cons. pose proof (len_nonneg data').
    replace (len data' + 1 =? 0) with false by (symmetry; apply Z.eqb_neq; lia).
    cbn [andb]. change cdataStart with ("<"%char :: bytes "![CDATA[").
    cbn [HasPrefix]. rewrite Hb0. reflexivity. }
  rewrite HS. unfold splitCharData. split.
  - intros text rest Hd Hnot.
    assert (Hi : IndexByte (text ++ "<"%char :: rest) "<" = len text).
    { clear -Hnot. induction text as [|c text IH]; [reflexivity|].
      apply not_elem_of_cons in Hnot as [Hc Hnot].
      cbn [app IndexByte]. apply not_eq_sym, Ascii.eqb_neq in Hc. rewrite Hc.
      rewrite IH by done. rewrite len_cons. pose proof (len_nonneg text).
      destruct (len text =? -1) eqn:E; [apply Z.eqb_eq in E; lia|done]. }
    rewrite Hd, Hi. pose proof (len_nonneg text).
    replace (len text =? -1) with false by (symmetry; apply Z.eqb_neq; lia).
    rewrite upto_app_le by lia. by rewrite upto_len.
  - intros Hnot.
    assert (Hi : IndexByte (b0 :: data') "<" = -1).
    { cbn [IndexByte]. rewrite Hb0.
      assert (Hi' : IndexByte data' "<" = -1).
      { clear -Hnot. induction data' as [|c l IH]; [reflexivity|].
        apply not_elem_of_cons in Hnot as [Hc Hnot].
        cbn [IndexByte]. apply not_eq_sym, Ascii.eqb_neq in Hc. rewrite Hc.
        by rewrite IH. }
      by rewrite Hi'. }
    by rewrite Hi.
Qed.

Lemma Split_chardata_witness :
  Split (bytes "test<a/>") false = Returns (Result 4 (Some (bytes "test")) None).
Proof.
  destruct (Split_chardata "t"%char (bytes "est<a/>") false) as [H _]; [discriminate|].
  apply (H (bytes "test") (bytes "a/>")); [reflexivity|].
  intros Hin. repeat (apply elem_of_cons in Hin as [Hin|Hin]; [discriminate|]).
  by apply elem_of_nil in Hin.
Defined.

(** ** The scanner at end of input *)

Lemma scanAll_covers_fuel (fuel : nat) (data : list byte) :
  (length data < fuel)%nat ->
  exists toks, scanAll fuel data = Some toks /\ concat toks = data /\
               Forall (fun tok => tok <> []) toks.
Proof.
  revert data. induction fuel as [|fuel IH]; intros data Hf; [lia|].
  destruct data as [|b0 data'].
  { exists []. split; [reflexivity|]. split; [reflexivity|constructor]. }
  destruct (Split_atEOF_progress (b0 :: data')) as (adv & tok & HS & Hadv); [done|].
  destruct (Split_token_prefix _ _ _ _ HS eq_refl) as (_ & _ & Ht & Ha).
  simpl in Ht, Ha.
  cbn [scanAll]. rewrite HS.
  destruct (IH (from adv (b0 :: data'))) as (toks & Hs & Hc & Hne).
  { unfold from. rewrite length_drop. simpl in *. lia. }
  exists (tok :: toks). rewrite Hs. split; [reflexivity|]. split.
  - simpl. rewrite Hc, Ht. unfold upto, from. apply take_drop.
  - constructor; [|done]. intros ->. change (len []) with 0 in Ha. lia.
Qed.

(** With the whole input buffered at end of input, the scanner stops after
    finitely many tokens, none of them empty, which put end to end are the
    input. *)
Theorem scanAll_covers (input : list byte) :
  exists toks, scanAll (S (length input)) input = Some toks /\
               concat toks = input /\ Forall (fun tok => tok <> []) toks.
Proof. apply scanAll_covers_fuel. lia. Qed.

(** * More on the tokenizer *)

(** ** What a call may change *)

Lemma reads_refl (t : Tokenizer) : reads t t.
Proof. exists (input (r t)). split; [by destruct t as [[??]????]|done]. Qed.

Lemma reads_setInput (t : Tokenizer) (rest : list byte) :
  rest `suffix_of` input (r t) -> reads t (setInput t rest).
Proof. intros H. by exists rest. Qed.

Lemma reads_trans (t1 t2 t3 : Tokenizer) : reads t1 t2 -> reads t2 t3 -> reads t1 t3.
Proof.
  intros (r1 & -> & H1) (r2 & -> & H2). exists r2. split; [done|].
  simpl in H2. by etrans.
Qed.

Ltac reads_chain :=
  repeat (eapply reads_trans; [eassumption|]); apply reads_refl.

Lemma ReadByte_reads (t : Tokenizer) (x : byte + error) (t' : Tokenizer) :
  ReadByte t = (x, t') -> reads t t'.
Proof.
  unfold ReadByte. destruct (input (r t)) as [|b rest] eqn:E; intros [= <- <-].
  - apply reads_refl.
  - apply reads_setInput. rewrite E. by apply suffix_cons_r.
Qed.

Lemma ReadByte_shorter (t : Tokenizer) (b : byte) (t' : Tokenizer) :
  ReadByte t = (inl b, t') ->
  (length (input (r t')) < length (input (r t)))%nat.
Proof.
  unfold ReadByte. destruct (input (r t)) as [|c rest] eqn:E; intros [= <- <-].
  simpl. lia.
Qed.

Lemma decodeDirective_loop_suffix fin inp dir res rest :
  decodeDirective_loop fin inp dir = (res, rest) -> rest `suffix_of` inp.
Proof.
  revert dir. induction inp as [|b inp IH]; intros dir H; cbn in H.
  - by injection H as <- <-.
  - destruct (b =? ">")%char.
    + injection H as <- <-. by apply suffix_cons_r.
    + apply suffix_cons_r. eauto.
Qed.

Lemma decodeComment_loop_suffix fin inp comment found res rest :
  decodeComment_loop fin inp comment found = (res, rest) -> rest `suffix_of` inp.
Proof.
  revert comment found. induction inp as [|b inp IH]; intros comment found H;
    cbn [decodeComment_loop] in H.
  - by injection H as <- <-.
  - destruct (b =? "-")%char; [apply suffix_cons_r; eauto|].
    destruct ((b =? ">")%char && (1 <? found)).
    + injection H as <- <-. by apply suffix_cons_r.
    + apply suffix_cons_r. eauto.
Qed.

Lemma decodeCharData_loop_suffix fin inp buf res rest :
  decodeCharData_loop fin inp buf = (res, rest) -> rest `suffix_of` inp.
Proof.
  revert buf. induction inp as [|b inp IH]; intros buf H; cbn in H.
  - by injection H as <- <-.
  - destruct (b =? "<")%char.
    + injection H as <- <-. by apply suffix_cons_r.
    + apply suffix_cons_r. eauto.
Qed.

Lemma decodeProcInst_loop_suffix fin inp inst fs fe target res rest :
  decodeProcInst_loop fin inp inst fs fe target = (res, rest) ->
  rest `suffix_of` inp.
Proof.
  revert inst fs fe target. induction inp as [|b inp IH];
    intros inst fs fe target H; cbn [decodeProcInst_loop] in H.
  - by injection H as <- <-.
  - apply suffix_cons_r.
    repeat match type of H with
    | (if ?c then _ else _) = _ => destruct c
    end; try (by injection H as <- <-); eauto.
Qed.

Lemma decodeAttr_value_suffix fin inp quote name raw res rest :
  decodeAttr_value fin inp quote name raw = (res, rest) -> rest `suffix_of` inp.
Proof.
  revert raw. induction inp as [|b inp IH]; intros raw H; cbn in H.
  - by injection H as <- <-.
  - destruct (b =? quote)%char.
    + injection H as <- <-. by apply suffix_cons_r.
    + apply suffix_cons_r. eauto.
Qed.

Lemma decodeDirective_reads t dir res t' :
  decodeDirective t dir = (res, t') -> reads t t'.
Proof.
  unfold decodeDirective.
  destruct (decodeDirective_loop _ _ _) as [res0 rest] eqn:E. intros [= <- <-].
  apply reads_setInput. eapply decodeDirective_loop_suffix, E.
Qed.

Lemma decodeComment_reads t comment res t' :
  decodeComment t comment = (res, t') -> reads t t'.
Proof.
  unfold decodeComment.
  destruct (decodeComment_loop _ _ _ _) as [res0 rest] eqn:E. intros [= <- <-].
  apply reads_setInput. eapply decodeComment_loop_suffix, E.
Qed.

Lemma decodeProcInst_reads t inst res t' :
  decodeProcInst t inst = (res, t') -> reads t t'.
Proof.
  unfold decodeProcInst.
  destruct (decodeProcInst_loop _ _ _ _ _ _) as [res0 rest] eqn:E. intros [= <- <-].
  apply reads_setInput. eapply decodeProcInst_loop_suffix, E.
Qed.

Section Frames.

Variable isNameByte : byte -> bool.

Lemma decodeName_loop_suffix pfx fin inp space fsep r1 r2 res rest :
  decodeName_loop isNameByte pfx fin inp space fsep r1 r2 = (res, rest) ->
  rest `suffix_of` inp.
Proof.
  revert fsep r1 r2. induction inp as [|b inp IH]; intros fsep r1 r2 H;
    cbn [decodeName_loop] in H.
  - by injection H as <- <-.
  - apply suffix_cons_r.
    repeat match type of H with
    | (if ?c then _ else _) = _ => destruct c
    end; try (by injection H as <- <-); eauto.
Qed.

Lemma decodeName_reads t b attr res t' :
  decodeName isNameByte t b attr = (res, t') -> reads t t'.
Proof.
  unfold decodeName.
  destruct (decodeName_loop _ _ _ _ _ _ _ _) as [res0 rest] eqn:E. intros [= <- <-].
  apply reads_setInput. eapply decodeName_loop_suffix, E.
Qed.

Lemma decodeAttr_reads t b res t' :
  decodeAttr isNameByte t b = (res, t') -> reads t t'.
Proof.
  unfold decodeAttr.
  destruct (decodeName isNameByte t b true) as [[[[name sep] def] [e|]] t1] eqn:E1;
    pose proof (decodeName_reads _ _ _ _ _ E1) as H1.
  { by intros [= <- <-]. }
  destruct (negb (sep =? "=")%char); [by intros [= <- <-]|].
  destruct (ReadByte t1) as [[c|e] t2] eqn:E2;
    pose proof (ReadByte_reads _ _ _ E2) as H2.
  2: { intros [= <- <-]. by eapply reads_trans. }
  destruct (negb (c =? "'")%char && negb (c =? dquote)%char).
  { intros [= <- <-]. by eapply reads_trans. }
  destruct (decodeAttr_value _ _ _ _ _) as [res0 rest] eqn:E3. intros [= <- <-].
  eapply reads_trans; [exact H1|]. eapply reads_trans; [exact H2|].
  apply reads_setInput. eapply decodeAttr_value_suffix, E3.
Qed.


(** What [reads] leaves as it was. *)
Lemma reads_fields (t t' : Tokenizer) :
  reads t t' ->
  final (r t') = final (r t) /\ input (r t') `suffix_of` input (r t) /\
  foundStart t' = foundStart t /\ selfClose t' = selfClose t /\
  prefixes t' = prefixes t /\ spaces t' = spaces t.
Proof. intros (rest & -> & H). done. Qed.

Lemma reads_length (t t' : Tokenizer) :
  reads t t' -> (length (input (r t')) <= length (input (r t)))%nat.
Proof. intros (rest & -> & H). simpl. by apply suffix_length. Qed.

Lemma length_setTop {A} (s : list A) (v : A) : length (setTop s v) = length s.
Proof. unfold setTop. apply length_insert. Qed.

(** The effect of the bookkeeping on the tokenizer: the reader and the
    flags are untouched, and the stacks keep their lengths. *)
Lemma bookkeep_effect t name def a t' name' def' :
  bookkeep t name def a = (t', name', def') ->
  r t' = r t /\ foundStart t' = foundStart t /\ selfClose t' = selfClose t /\
  length (prefixes t') = length (prefixes t) /\
  length (spaces t') = length (spaces t).
Proof.
  unfold bookkeep.
  repeat match goal with
  | |- (if ?c then _ else _) = _ -> _ => destruct c
  end; intros [= <- <- <-]; cbn; rewrite ?length_setTop; try done.
  all: destruct (top (prefixes t)); by rewrite ?length_setTop.
Qed.

(** What the loop of [decodeStartElement] may change. *)
Lemma decodeStartElement_loop_effect fuel t name sep def attr res t' :
  decodeStartElement_loop isNameByte fuel t name sep def attr = Some (res, t') ->
  final (r t') = final (r t) /\ input (r t') `suffix_of` input (r t) /\
  foundStart t' = foundStart t /\
  length (prefixes t') = length (prefixes t) /\
  length (spaces t') = length (spaces t).
Proof.
  revert t name sep def attr.
  induction fuel as [|fuel IH]; intros t name sep def attr H; [discriminate|].
  cbn [decodeStartElement_loop] in H.
  destruct (isSpace sep).
  { destruct (ReadByte t) as [[c|e] t1] eqn:E1;
      apply ReadByte_reads, reads_fields in E1 as (F1 & F2 & F3 & F4 & F5 & F6).
    - apply IH in H as (G1 & G2 & G3 & G4 & G5).
      rewrite G1, G3, G4, G5, F1, F3, F5, F6. repeat split; try done. by etrans.
    - injection H as <- <-. by rewrite F1, F3, F5, F6. }
  destruct (sep =? "/")%char.
  { destruct (ReadByte (setSelfClose t (Some name))) as [[c|e] t1] eqn:E1;
      apply ReadByte_reads, reads_fields in E1 as (F1 & F2 & F3 & F4 & F5 & F6);
      cbn in F1, F2, F3, F5, F6.
    - destruct (negb (c =? ">")%char); injection H as <- <-;
        by rewrite F1, F3, F5, F6.
    - injection H as <- <-. by rewrite F1, F3, F5, F6. }
  destruct (sep =? ">")%char.
  { injection H as <- <-. done. }
  destruct (decodeAttr isNameByte t sep) as [[a [e|]] t1] eqn:E1;
    apply decodeAttr_reads, reads_fields in E1 as (F1 & F2 & F3 & F4 & F5 & F6).
  { injection H as <- <-. by rewrite F1, F3, F5, F6. }
  destruct (ReadByte t1) as [[c|e] t2] eqn:E2;
    apply ReadByte_reads, reads_fields in E2 as (G1 & G2 & G3 & G4 & G5 & G6).
  2: { injection H as <- <-. rewrite G1, G3, G5, G6, F1, F3, F5, F6.
       repeat split; try done. by etrans. }
  destruct (bookkeep t2 name def a) as [[t3 name'] def'] eqn:E3.
  apply bookkeep_effect in E3 as (K1 & K2 & K3 & K4 & K5).
  apply IH in H as (L1 & L2 & L3 & L4 & L5).
  rewrite L1, L3, L4, L5, K1, K2, K4, K5, G1, G3, G5, G6, F1, F3, F5, F6.
  repeat split; try done. rewrite K1 in L2. etrans; [exact L2|]. by etrans.
Qed.

(** The loop of [decodeStartElement] reads a byte at every turn: fuel above
    the number of bytes left is enough. *)
Lemma decodeStartElement_loop_fuel fuel t name sep def attr :
  (length (input (r t)) < fuel)%nat ->
  is_Some (decodeStartElement_loop isNameByte fuel t name sep def attr).
Proof.
  revert t name sep def attr.
  induction fuel as [|fuel IH]; intros t name sep def attr Hf; [lia|].
  cbn [decodeStartElement_loop].
  destruct (isSpace sep).
  { destruct (ReadByte t) as [[c|e] t1] eqn:E1; [|done].
    apply IH. apply ReadByte_shorter in E1. lia. }
  destruct (sep =? "/")%char.
  { destruct (ReadByte (setSelfClose t (Some name))) as [[c|e] t1]; [|done].
    by destruct (negb (c =? ">")%char). }
  destruct (sep =? ">")%char; [done|].
  destruct (decodeAttr isNameByte t sep) as [[a [e|]] t1] eqn:E1; [done|].
  apply decodeAttr_reads, reads_length in E1.
  destruct (ReadByte t1) as [[c|e] t2] eqn:E2; [|done].
  apply ReadByte_shorter in E2.
  destruct (bookkeep t2 name def a) as [[t3 name'] def'] eqn:E3.
  apply bookkeep_effect in E3 as (K1 & _). apply IH. rewrite K1. lia.
Qed.

Lemma decodeStartElement_returns t b :
  is_Some (decodeStartElement isNameByte t b).
Proof.
  unfold decodeStartElement.
  destruct (decodeName _ _ _ _) as [[[[name sep] def] [e|]] t1]; [done|].
  apply decodeStartElement_loop_fuel. lia.
Qed.

Lemma decodeStartElement_effect t b res t' :
  decodeStartElement isNameByte t b = Some (res, t') ->
  final (r t') = final (r t) /\ input (r t') `suffix_of` input (r t) /\
  foundStart t' = foundStart t /\
  length (prefixes t') = S (length (prefixes t)) /\
  length (spaces t') = S (length (spaces t)).
Proof.
  unfold decodeStartElement.
  destruct (decodeName _ _ _ _) as [[[[name sep] def] [e|]] t1] eqn:E1;
    apply decodeName_reads, reads_fields in E1 as (F1 & F2 & F3 & F4 & F5 & F6);
    cbn in F1, F2, F3, F5, F6.
  - intros [= <- <-]. rewrite F1, F3, F5, F6, !length_app. simpl.
    repeat split; try done; lia.
  - intros H. apply decodeStartElement_loop_effect in H as (L1 & L2 & L3 & L4 & L5).
    rewrite L1, L3, L4, L5, F1, F3, F5, F6, !length_app. simpl.
    repeat split; try done; try lia. by etrans.
Qed.


Lemma length_dropTop {A} (s : list A) : length (dropTop s) = Nat.pred (length s).
Proof. unfold dropTop. rewrite length_take. lia. Qed.

Lemma popStacks_effect t :
  r (popStacks t) = r t /\ foundStart (popStacks t) = foundStart t /\
  selfClose (popStacks t) = selfClose t /\
  length (prefixes (popStacks t)) = Nat.pred (length (prefixes t)) /\
  length (spaces (popStacks t)) = Nat.pred (length (spaces t)).
Proof.
  destruct t as [rd fs sc pfx sp]. unfold popStacks. cbn [prefixes].
  destruct (0 <? len pfx) eqn:E1; cbn [spaces setPrefixes foundStart selfClose r prefixes];
    destruct (0 <? len sp) eqn:E2; cbn; rewrite ?length_dropTop; repeat split;
    try done.
  all: try (apply Z.ltb_ge in E1; unfold len in E1; destruct pfx; simpl in *; [done|lia]).
  all: try (apply Z.ltb_ge in E2; unfold len in E2; destruct sp; simpl in *; [done|lia]).
Qed.

(** What one call of [Token] may do to the tokenizer. *)
Lemma Token_effect t res t' :
  Token isNameByte t = Some (res, t') ->
  final (r t') = final (r t) /\ input (r t') `suffix_of` input (r t) /\
  (aligned t -> aligned t') /\
  ~ (foundStart t' = true /\ is_Some (selfClose t')).
Proof.
  unfold Token, aligned.
  destruct (selfClose t) as [name|] eqn:Hsc.
  { intros [= <- <-]. cbn. repeat split; try done. by intros [_ [? [=]]]. }
  (* the first byte *)
  assert (H1 : exists x t1,
    (if foundStart t then (inl "<"%char, setFoundStart t false) else ReadByte t)
      = (x, t1) /\
    final (r t1) = final (r t) /\ input (r t1) `suffix_of` input (r t) /\
    foundStart t1 = false /\ selfClose t1 = None /\
    prefixes t1 = prefixes t /\ spaces t1 = spaces t).
  { destruct (foundStart t) eqn:Hfs.
    - eexists _, _. split; [reflexivity|]. cbn. done.
    - destruct (ReadByte t) as [x t1] eqn:E. exists x, t1. split; [done|].
      apply ReadByte_reads, reads_fields in E as (F1 & F2 & F3 & F4 & F5 & F6).
      by rewrite F1, F3, F4, F5, F6. }
  destruct H1 as (x & t1 & -> & A1 & A2 & A3 & A4 & A5 & A6).
  destruct x as [b|e].
  2: { intros [= <- <-]. rewrite A1, A3, A4, A5, A6. repeat split; try done.
       by intros [[=] _]. }
  destruct (negb (b =? "<")%char).
  { unfold decodeCharData.
    destruct (decodeCharData_loop _ _ _) as [[[data e] found] rest] eqn:E.
    apply decodeCharData_loop_suffix in E.
    intros [= <- <-]. destruct found; cbn; rewrite A1, A4, A5, A6;
      (split; [done|]; split; [by etrans|]; split; [done|]; by intros [_ [? [=]]]). }
  (* every later step that only reads *)
  assert (Hreads : forall t2, reads t1 t2 ->
    final (r t2) = final (r t) /\ input (r t2) `suffix_of` input (r t) /\
    (length (prefixes t) = length (spaces t) ->
     length (prefixes t2) = length (spaces t2)) /\
    ~ (foundStart t2 = true /\ is_Some (selfClose t2))).
  { intros t2 (F1 & F2 & F3 & F4 & F5 & F6)%reads_fields.
    rewrite F1, F3, F4, F5, F6, A1, A3, A4, A5, A6. repeat split; try done.
    - by etrans.
    - by intros [[=] _]. }
  destruct (ReadByte t1) as [[c|e] t2] eqn:E2; apply ReadByte_reads in E2.
  2: { intros [= <- <-]. by apply Hreads. }
  destruct (c =? "!")%char.
  { destruct (ReadByte t2) as [[c3|e] t3] eqn:E3; apply ReadByte_reads in E3.
    2: { intros [= <- <-]. apply Hreads. reads_chain. }
    destruct (c3 =? "-")%char.
    - destruct (ReadByte t3) as [[c4|e] t4] eqn:E4; apply ReadByte_reads in E4.
      2: { intros [= <- <-]. apply Hreads.
           reads_chain. }
      destruct (c4 =? "-")%char.
      + destruct (decodeComment t4 (Some [])) as [[data e] t5] eqn:E5.
        apply decodeComment_reads in E5. intros [= <- <-]. apply Hreads.
        reads_chain.
      + intros [= <- <-]. apply Hreads.
        reads_chain.
    - destruct (decodeDirective t3 (Some [c3])) as [[data e] t4] eqn:E4.
      apply decodeDirective_reads in E4. intros [= <- <-]. apply Hreads.
      reads_chain. }
  destruct (c =? "?")%char.
  { destruct (decodeProcInst t2 None) as [[[target inst] [e|]] t3] eqn:E3;
      apply decodeProcInst_reads in E3; intros [= <- <-]; apply Hreads;
      reads_chain. }
  destruct (c =? "/")%char.
  { unfold decodeEndElement.
    destruct (decodeName isNameByte t2 nul false) as [[[[name sep] def] oe] t3] eqn:E3.
    apply decodeName_reads in E3.
    assert (H3 : reads t1 t3) by reads_chain.
    apply Hreads in H3 as (B1 & B2 & B3 & B4).
    destruct (popStacks_effect t3) as (P1 & P2 & P3 & P4 & P5).
    assert (Hgoal : final (r (popStacks t3)) = final (r t) /\
      input (r (popStacks t3)) `suffix_of` input (r t) /\
      (length (prefixes t) = length (spaces t) ->
       length (prefixes (popStacks t3)) = length (spaces (popStacks t3))) /\
      ~ (foundStart (popStacks t3) = true /\ is_Some (selfClose (popStacks t3)))).
    { rewrite P1, P2, P3, P4, P5. repeat split; try done.
      intros Hal. by rewrite B3. }
    destruct oe; intros [= <- <-]; exact Hgoal. }
  destruct (decodeStartElement isNameByte t2 c) as [[[[name attr] e] t3]|] eqn:E3;
    [|discriminate].
  apply decodeStartElement_effect in E3 as (S1 & S2 & S3 & S4 & S5).
  apply reads_fields in E2 as (F1 & F2 & F3 & F4 & F5 & F6).
  intros [= <- <-]. rewrite S1, S3, S4, S5, F1, F3, F5, F6, A1, A3, A5, A6.
  repeat split; try done.
  - etrans; [exact S2|]. by etrans.
  - intros Hal. by rewrite Hal.
  - by intros [[=] _].
Qed.

(** [Token] always returns: the fuel that the embedding gives the loop of
    [decodeStartElement] never runs out. *)
Theorem Token_returns (t : Tokenizer) :
  exists res t', Token isNameByte t = Some (res, t').
Proof.
  unfold Token.
  destruct (selfClose t); [eauto|].
  destruct (if foundStart t then _ else _) as [[b|e] t1]; [|eauto].
  destruct (negb (b =? "<")%char).
  { destruct (decodeCharData t1 (Some [b])) as [[data e] t2]. eauto. }
  destruct (ReadByte t1) as [[c|e] t2]; [|eauto].
  destruct (c =? "!")%char.
  { destruct (ReadByte t2) as [[c3|e] t3]; [|eauto].
    destruct (c3 =? "-")%char.
    - destruct (ReadByte t3) as [[c4|e] t4]; [|eauto].
      destruct (c4 =? "-")%char; [|eauto].
      destruct (decodeComment t4 (Some [])) as [[data e] t5]. eauto.
    - destruct (decodeDirective t3 (Some [c3])) as [[data e] t4]. eauto. }
  destruct (c =? "?")%char.
  { destruct (decodeProcInst t2 None) as [[[target inst] [e|]] t3]; eauto. }
  destruct (c =? "/")%char.
  { destruct (decodeEndElement isNameByte t2) as [[name e] t3]. eauto. }
  destruct (decodeStartElement_returns t2 c) as [[[[name attr] e] t3] ->]. eauto.
Qed.

(** [Token] only moves forward in the input: what is left to read
    afterwards is a suffix of what was left before, and the error that the
    reader reports at the end is the same. *)
Theorem Token_reads_forward t res t' :
  Token isNameByte t = Some (res, t') ->
  input (r t') `suffix_of` input (r t) /\ final (r t') = final (r t).
Proof. intros H. apply Token_effect in H as (H1 & H2 & _). done. Qed.

(** The two namespace stacks have the same height after a call of [Token]
    if they had before it. *)
Theorem Token_keeps_aligned t res t' :
  Token isNameByte t = Some (res, t') -> aligned t -> aligned t'.
Proof. intros H. apply Token_effect in H as (_ & _ & H & _). exact H. Qed.

(** After a call of [Token], [foundStart] and [selfClose] are never both
    set. *)
Theorem Token_flags_exclusive t res t' :
  Token isNameByte t = Some (res, t') ->
  ~ (foundStart t' = true /\ is_Some (selfClose t')).
Proof. intros H. apply Token_effect in H as (_ & _ & _ & H). exact H. Qed.

End Frames.

Section Tokens.

Variable isNameByte : byte -> bool.

(** ** End of input *)

(** With nothing pending and nothing left to read, [Token] returns no token
    and the error of the reader, [io.EOF] at the end of a stream, and leaves
    the tokenizer as it is: every later call answers the same. *)
Theorem Token_at_end (t : Tokenizer) :
  selfClose t = None -> pending t = [] ->
  Token isNameByte t = Some ((None, Some (final (r t))), t).
Proof.
  destruct t as [[inp fin] fs sc pfx sp]. unfold pending. cbn.
  intros -> H. destruct fs; [discriminate|]. subst inp. reflexivity.
Qed.


(** [<!-] followed by a byte other than [-] is a syntax error. *)
Theorem Token_bad_comment_start (t : Tokenizer) (c : byte) (rest : list byte) :
  selfClose t = None -> pending t = bytes "<!-" ++ c :: rest -> c <> "-"%char ->
  exists t',
    Token isNameByte t =
      Some ((None, Some (SyntaxError "invalid sequence <!- not part of <!--")), t') /\
    input (r t') = rest.
Proof.
  intros Hsc Hp Hc. rewrite (Token_open _ t _ _ Hsc Hp).
  apply Ascii.eqb_neq in Hc.
  destruct t as [[inp fin] fs sc pfx sp]. cbn. rewrite Hc. eauto.
Qed.

(** ** Character data *)

Lemma decodeCharData_loop_text fin body rest buf :
  "<"%char ∉ body ->
  decodeCharData_loop fin (body ++ "<"%char :: rest) (Some buf) =
    ((Some (buf ++ body), None, true), rest).
Proof.
  revert buf. induction body as [|c body IH]; intros buf Hnot.
  - cbn. by rewrite app_nil_r.
  - apply not_elem_of_cons in Hnot as [Hc Hnot].
    apply not_eq_sym, Ascii.eqb_neq in Hc. cbn [app decodeCharData_loop].
    rewrite Hc. unfold append. cbn [elems default]. rewrite IH by done.
    by rewrite <- app_assoc.
Qed.

(** Text up to the next [<] is returned as one CharData, byte for byte; the
    [<] is consumed and remembered, so that the next call starts at it. *)
Theorem Token_chardata (t : Tokenizer) (b : byte) (body rest : list byte) :
  selfClose t = None -> pending t = b :: body ++ "<"%char :: rest ->
  b <> "<"%char -> "<"%char ∉ body ->
  exists t',
    Token isNameByte t = Some ((Some (CharData (Some (b :: body))), None), t') /\
    pending t' = "<"%char :: rest /\ input (r t') = rest /\ selfClose t' = None.
Proof.
  destruct t as [[inp fin] fs sc pfx sp]. unfold pending. cbn.
  intros -> Hp Hb Hnot. destruct fs; [by injection Hp as <-|]. subst inp.
  apply Ascii.eqb_neq in Hb. unfold Token. cbn. rewrite Hb. cbn.
  unfold decodeCharData. cbn. rewrite decodeCharData_loop_text by done.
  cbn. eauto.
Qed.

(** ** Directives *)

Lemma decodeDirective_loop_body fin body rest dir :
  ">"%char ∉ body ->
  decodeDirective_loop fin (body ++ ">"%char :: rest) (Some dir) =
    ((Some (dir ++ body), None), rest).
Proof.
  revert dir. induction body as [|c body IH]; intros dir Hnot.
  - cbn. by rewrite app_nil_r.
  - apply not_elem_of_cons in Hnot as [Hc Hnot].
    apply not_eq_sym, Ascii.eqb_neq in Hc. cbn [app decodeDirective_loop].
    rewrite Hc. unfold append. cbn [elems default]. rewrite IH by done.
    by rewrite <- app_assoc.
Qed.

(** [<!], a first byte other than [-], then bytes up to the next [>]: the
    Directive holds the first byte and those bytes. *)
Theorem Token_directive (t : Tokenizer) (c : byte) (body rest : list byte) :
  selfClose t = None -> pending t = bytes "<!" ++ c :: body ++ ">"%char :: rest ->
  c <> "-"%char -> ">"%char ∉ body ->
  exists t',
    Token isNameByte t = Some ((Some (Directive (Some (c :: body))), None), t') /\
    input (r t') = rest /\ foundStart t' = false.
Proof.
  intros Hsc Hp Hc Hnot. rewrite (Token_open _ t _ _ Hsc Hp).
  apply Ascii.eqb_neq in Hc.
  destruct t as [[inp fin] fs sc pfx sp]. cbn. rewrite Hc.
  unfold decodeDirective. cbn. rewrite decodeDirective_loop_body by done.
  cbn. eauto.
Qed.


(** ** Comments *)

Lemma elems_append {A} (s : slice A) (x : A) : elems (append s x) = elems s ++ [x].
Proof. reflexivity. Qed.

Lemma elems_Some {A} (l : list A) : elems (Some l) = l.
Proof. reflexivity. Qed.

Lemma flushDashes_elems (n : nat) (comment : slice byte) :
  elems (flushDashes n comment) = elems comment ++ replicate n "-"%char.
Proof.
  revert comment. induction n as [|n IH]; intros comment.
  - cbn. by rewrite app_nil_r.
  - cbn [flushDashes]. rewrite IH, elems_append, <- app_assoc. reflexivity.
Qed.

Lemma decodeComment_loop_count fin (k : nat) rest comment found :
  0 <= found -> found + Z.of_nat k < 256 ->
  decodeComment_loop fin (replicate k "-"%char ++ rest) comment found =
    decodeComment_loop fin rest comment (found + Z.of_nat k).
Proof.
  revert found. induction k as [|k IH]; intros found H0 H.
  - cbn [replicate app]. f_equal. lia.
  - cbn [replicate app decodeComment_loop]. cbn.
    rewrite Z.mod_small by lia. rewrite IH by lia. f_equal. lia.
Qed.

Lemma decodeComment_loop_run fin (n : nat) (b : byte) (inp : list byte)
    (comment : slice byte) :
  (n < 256)%nat -> b <> "-"%char -> (b = ">"%char -> (n < 2)%nat) ->
  decodeComment_loop fin (replicate n "-"%char ++ b :: inp) comment 0 =
    decodeComment_loop fin inp
      (Some (elems comment ++ replicate n "-"%char ++ [b])) 0.
Proof.
  intros Hn Hb Hgt. rewrite decodeComment_loop_count by lia.
  cbn [decodeComment_loop]. apply Ascii.eqb_neq in Hb. rewrite Hb.
  assert (Hend : (b =? ">")%char && (1 <? 0 + Z.of_nat n) = false).
  { destruct (b =? ">")%char eqn:E; [|done]. apply Ascii.eqb_eq in E.
    specialize (Hgt E). cbn. apply Z.ltb_ge. lia. }
  rewrite Hend. unfold append. rewrite flushDashes_elems.
  replace (Z.to_nat (0 + Z.of_nat n)) with n by lia. by rewrite <- app_assoc.
Qed.

(** A run of fewer than 256 dashes followed by a byte that does not end the
    comment is copied into the comment, dash for dash, before that byte. *)
Theorem decodeComment_dashes fin (n : nat) (b : byte) (inp : list byte)
    (comment : slice byte) :
  (n < 256)%nat -> b <> "-"%char -> (b = ">"%char -> (n < 2)%nat) ->
  decodeComment_loop fin (replicate n "-"%char ++ b :: inp) comment 0 =
    decodeComment_loop fin inp
      (Some (elems comment ++ replicate n "-"%char ++ [b])) 0.
Proof. apply decodeComment_loop_run. Qed.

Lemma decodeComment_loop_body fin body rest acc :
  commentBody body ->
  decodeComment_loop fin (body ++ "-"%char :: "-"%char :: ">"%char :: rest) (Some acc) 0 =
    ((Some (acc ++ body), None), rest).
Proof.
  intros H. revert acc. induction H as [|n b body Hn Hb Hgt Hbody IH]; intros acc.
  - cbn. by rewrite app_nil_r.
  - rewrite <- app_assoc. cbn [app]. rewrite decodeComment_loop_run by done.
    rewrite elems_Some, IH. by rewrite <- !app_assoc.
Qed.

(** A comment whose body has no run of 256 dashes, no [-->] and no dash
    before the closing [-->] is returned with exactly that body. *)
Theorem Token_comment (t : Tokenizer) (body rest : list byte) :
  selfClose t = None -> pending t = bytes "<!--" ++ body ++ bytes "-->" ++ rest ->
  commentBody body ->
  exists t',
    Token isNameByte t = Some ((Some (Comment (Some body)), None), t') /\
    input (r t') = rest.
Proof.
  intros Hsc Hp Hbody. rewrite (Token_open _ t _ _ Hsc Hp).
  destruct t as [[inp fin] fs sc pfx sp]. cbn.
  unfold decodeComment. cbn.
  rewrite (decodeComment_loop_body fin body rest [] Hbody). cbn. eauto.
Qed.


(** ** Processing instructions *)

Lemma decodeProcInst_loop_target fin target rest inst acc :
  forallb targetByte target = true ->
  decodeProcInst_loop fin (target ++ rest) inst false false acc =
    decodeProcInst_loop fin rest inst false false (acc +:+ str target).
Proof.
  revert acc. induction target as [|c target IH]; intros acc H.
  - cbn [app]. unfold str. cbn. by rewrite append_empty_r.
  - cbn [forallb] in H. apply andb_true_iff in H as [Hc H].
    unfold targetByte in Hc. apply negb_true_iff in Hc.
    apply orb_false_iff in Hc as [Hc Hsp]. apply orb_false_iff in Hc as [Hgt Hq].
    cbn [app decodeProcInst_loop]. rewrite Hgt, Hq, Hsp.
    rewrite IH by done. by rewrite WriteByte_str.
Qed.

Lemma length_str (l : list byte) : String.length (str l) = length l.
Proof. unfold str. induction l as [|c l IH]; [done|]. cbn. by rewrite IH. Qed.

Lemma isSpace_not_mark (ws : byte) :
  isSpace ws = true -> (ws =? ">")%char = false /\ (ws =? "?")%char = false.
Proof.
  unfold isSpace. intros H.
  repeat (apply orb_true_iff in H as [H|H]); apply Ascii.eqb_eq in H; by subst ws.
Qed.

Lemma decodeProcInst_loop_inst fin inst rest acc target :
  String.length target <> 0%nat -> "?"%char ∉ inst ->
  decodeProcInst_loop fin (inst ++ "?"%char :: ">"%char :: rest) acc true false target =
    (((target, match inst with [] => acc | _ => Some (elems acc ++ inst) end), None),
     rest).
Proof.
  intros Ht. apply Nat.eqb_neq in Ht.
  revert acc. induction inst as [|c inst IH]; intros acc Hnot; [reflexivity|].
  apply not_elem_of_cons in Hnot as [Hc Hnot].
  apply not_eq_sym, Ascii.eqb_neq in Hc.
  assert (Hstep :
    decodeProcInst_loop fin (c :: inst ++ "?"%char :: ">"%char :: rest) acc true false target =
    decodeProcInst_loop fin (inst ++ "?"%char :: ">"%char :: rest) (append acc c) true false target).
  { cbn [decodeProcInst_loop]. rewrite Hc, Ht. cbn [negb].
    destruct (c =? ">")%char; [reflexivity|]. by destruct (isSpace c). }
  cbn [app]. rewrite Hstep, IH by done. rewrite elems_append.
  destruct inst; [reflexivity|]. by rewrite <- app_assoc.
Qed.

(** A processing instruction with a target, one white space and an
    instruction without [?] gives the target and the instruction as they are
    written; the instruction is nil when there is none. *)
Theorem Token_procinst (t : Tokenizer) (target : list byte) (ws : byte)
    (inst rest : list byte) :
  selfClose t = None ->
  pending t = bytes "<?" ++ target ++ ws :: inst ++ bytes "?>" ++ rest ->
  target <> [] -> forallb targetByte target = true -> isSpace ws = true ->
  "?"%char ∉ inst ->
  exists t',
    Token isNameByte t = Some ((Some (ProcInst (str target) (grown inst)), None), t') /\
    input (r t') = rest.
Proof.
  intros Hsc Hp Hne Htarget Hws Hinst. rewrite (Token_open _ t _ _ Hsc Hp).
  destruct (isSpace_not_mark ws Hws) as [Hgt Hq].
  destruct t as [[inp fin] fs sc pfx sp]. cbn.
  unfold decodeProcInst. cbn [r input final setInput setFoundStart].
  rewrite decodeProcInst_loop_target by done.
  cbn [decodeProcInst_loop]. rewrite Hgt, Hq, Hws. cbn [negb].
  change (EmptyString +:+ str target)%string with (str target).
  rewrite decodeProcInst_loop_inst; [|rewrite length_str; by destruct target|done].
  cbn. eexists. split; [destruct inst; reflexivity|reflexivity].
Qed.

(** A processing instruction with no target before its first content byte
    fails with the error "expected target name after <?": so for [<?>], and
    for [<?], a white space and any byte other than [?]. *)
Theorem Token_procinst_no_target (t : Tokenizer) (rest : list byte) :
  selfClose t = None ->
  (pending t = bytes "<?>" ++ rest \/
   exists ws b rest', pending t = bytes "<?" ++ ws :: b :: rest' /\
                      isSpace ws = true /\ b <> "?"%char) ->
  fst <$> Token isNameByte t =
    Some (None, Some (SyntaxError "xml: expected target name after <?")).
Proof.
  intros Hsc [Hp|(ws & b & rest' & Hp & Hws & Hb)];
    rewrite (Token_open _ t _ _ Hsc Hp).
  - by destruct t as [[inp fin] fs sc pfx sp].
  - destruct (isSpace_not_mark ws Hws) as [Hgt Hq]. apply Ascii.eqb_neq in Hb.
    destruct t as [[inp fin] fs sc pfx sp]. cbn.
    unfold decodeProcInst. cbn [r input final setInput setFoundStart].
    cbn [decodeProcInst_loop]. rewrite Hgt, Hq, Hws, Hb. cbn.
    destruct (b =? ">")%char; [reflexivity|]. by destruct (isSpace b).
Qed.

End Tokens.

Lemma Token_comment_witness :
  exists t',
    Token isNameByte (NewTokenizer (bytes "<!-- test- --><a>")) =
      Some ((Some (Comment (Some (bytes " test- "))), None), t') /\
    input (r t') = bytes "<a>".
Proof.
  apply (Token_comment isNameByte (NewTokenizer (bytes "<!-- test- --><a>"))
           (bytes " test- ") (bytes "<a>")); [reflexivity|reflexivity|].
  do 5 (apply (commentBody_run 0); [lia|discriminate|discriminate|]).
  apply (commentBody_run 1 " "%char); [lia|discriminate|discriminate|].
  apply commentBody_nil.
Defined.

Lemma decodeComment_dashes_witness :
  decodeComment_loop EOF (replicate 3 "-"%char ++ "a"%char :: bytes "-->") (Some []) 0 =
    decodeComment_loop EOF (bytes "-->") (Some (bytes "---a")) 0.
Proof.
  apply (decodeComment_dashes EOF 3 "a"%char (bytes "-->") (Some []));
    [lia|discriminate|discriminate].
Defined.

Lemma Token_procinst_witness :
  exists t',
    Token isNameByte (NewTokenizer (bytes "<?xml version='1.0'?>")) =
      Some ((Some (ProcInst "xml" (Some (bytes "version='1.0'"))), None), t') /\
    input (r t') = [].
Proof.
  apply (Token_procinst isNameByte (NewTokenizer (bytes "<?xml version='1.0'?>"))
           (bytes "xml") " "%char (bytes "version='1.0'") []);
    try reflexivity; try discriminate.
  intros Hin. repeat (apply elem_of_cons in Hin as [Hin|Hin]; [discriminate|]).
  by apply elem_of_nil in Hin.
Defined.

Lemma Token_procinst_no_target_witness :
  fst <$> Token isNameByte (NewTokenizer (bytes "<? x?>")) =
    Some (None, Some (SyntaxError "xml: expected target name after <?")).
Proof.
  apply (Token_procinst_no_target isNameByte (NewTokenizer (bytes "<? x?>")) []);
    [reflexivity|].
  right. exists " "%char, "x"%char, (bytes "?>"). split; [reflexivity|].
  split; [reflexivity|discriminate].
Defined.

(** ** The stack discipline *)

Lemma setTop_snoc {A} (s : list A) (x v : A) : setTop (s ++ [x]) v = s ++ [v].
Proof.
  unfold setTop. rewrite length_app. simpl.
  replace (Nat.pred (length s + 1)) with (length s + 0)%nat by lia.
  by rewrite insert_app_r.
Qed.

Lemma top_snoc {A} (s : list A) (x : A) : top (s ++ [x]) = Some x.
Proof.
  unfold top. rewrite length_app. simpl.
  replace (Nat.pred (length s + 1)) with (length s + 0)%nat by lia.
  by rewrite list_lookup_middle.
Qed.

Lemma dropTop_snoc {A} (s : list A) (x : A) : dropTop (s ++ [x]) = s.
Proof.
  unfold dropTop. rewrite length_app. simpl.
  replace (Nat.pred (length s + 1)) with (length s) by lia.
  by rewrite take_app_length.
Qed.

Section Stacks.

Variable isNameByte : byte -> bool.

Lemma bookkeep_top t name def a t' name' def' bp m bs s :
  prefixes t = bp ++ [m] -> spaces t = bs ++ [s] ->
  bookkeep t name def a = (t', name', def') ->
  r t' = r t /\ exists m' s', prefixes t' = bp ++ [m'] /\ spaces t' = bs ++ [s'].
Proof.
  intros Hp Hs. unfold bookkeep. rewrite Hp, Hs, top_snoc, !setTop_snoc.
  repeat match goal with
  | |- (if ?c then _ else _) = _ -> _ => destruct c
  end; intros [= <- <- <-]; cbn; rewrite ?Hp, ?Hs; eauto.
Qed.

Lemma decodeStartElement_loop_top fuel t name sep def attr res t' bp m bs s :
  prefixes t = bp ++ [m] -> spaces t = bs ++ [s] ->
  decodeStartElement_loop isNameByte fuel t name sep def attr = Some (res, t') ->
  exists m' s', prefixes t' = bp ++ [m'] /\ spaces t' = bs ++ [s'].
Proof.
  revert t name sep def attr m s.
  induction fuel as [|fuel IH]; intros t name sep def attr m s Hp Hs H; [discriminate|].
  cbn [decodeStartElement_loop] in H.
  destruct (isSpace sep).
  { destruct (ReadByte t) as [[c|e] t1] eqn:E1;
      apply ReadByte_reads, reads_fields in E1 as (_ & _ & _ & _ & F5 & F6).
    - eapply IH; [| |exact H]; [by rewrite F5|by rewrite F6].
    - injection H as <- <-. rewrite F5, F6. eauto. }
  destruct (sep =? "/")%char.
  { destruct (ReadByte (setSelfClose t (Some name))) as [[c|e] t1] eqn:E1;
      apply ReadByte_reads, reads_fields in E1 as (_ & _ & _ & _ & F5 & F6);
      cbn in F5, F6.
    - destruct (negb (c =? ">")%char); injection H as <- <-; rewrite F5, F6; eauto.
    - injection H as <- <-. rewrite F5, F6. eauto. }
  destruct (sep =? ">")%char.
  { injection H as <- <-. eauto. }
  destruct (decodeAttr isNameByte t sep) as [[a [e|]] t1] eqn:E1;
    apply decodeAttr_reads, reads_fields in E1 as (_ & _ & _ & _ & F5 & F6).
  { injection H as <- <-. rewrite F5, F6. eauto. }
  destruct (ReadByte t1) as [[c|e] t2] eqn:E2;
    apply ReadByte_reads, reads_fields in E2 as (_ & _ & _ & _ & G5 & G6).
  2: { injection H as <- <-. rewrite G5, G6, F5, F6. eauto. }
  destruct (bookkeep t2 name def a) as [[t3 name'] def'] eqn:E3.
  apply (bookkeep_top _ _ _ _ _ _ _ bp m bs s) in E3 as (_ & m' & s' & K1 & K2);
    [|by rewrite G5, F5|by rewrite G6, F6].
  eapply IH; [exact K1|exact K2|exact H].
Qed.

Lemma decodeStartElement_top t b res t' :
  decodeStartElement isNameByte t b = Some (res, t') ->
  exists m s, prefixes t' = prefixes t ++ [m] /\ spaces t' = spaces t ++ [s].
Proof.
  unfold decodeStartElement.
  destruct (decodeName _ _ _ _) as [[[[name sep] def] [e|]] t1] eqn:E1;
    apply decodeName_reads, reads_fields in E1 as (_ & _ & _ & _ & F5 & F6);
    cbn in F5, F6.
  - intros [= <- <-]. rewrite F5, F6. eauto.
  - intros H. eapply decodeStartElement_loop_top; [exact F5|exact F6|exact H].
Qed.

(** Case analysis of [Token] on the kind of token it returns. *)
Lemma Token_cases t tok e t' :
  selfClose t = None ->
  Token isNameByte t = Some ((Some tok, e), t') ->
  (exists name attr t2 b, tok = StartElement name attr /\
      prefixes t2 = prefixes t /\ spaces t2 = spaces t /\
      decodeStartElement isNameByte t2 b = Some (((name, attr), e), t')) \/
  (exists name t2 t3 res, tok = EndElement name /\
      prefixes t2 = prefixes t /\ spaces t2 = spaces t /\
      decodeName isNameByte t2 nul false = (res, t3) /\ t' = popStacks t3) \/
  ((forall name attr, tok <> StartElement name attr) /\
   (forall name, tok <> EndElement name) /\
   prefixes t' = prefixes t /\ spaces t' = spaces t).
Proof.
  intros Hsc. unfold Token. rewrite Hsc.
  assert (H1 : exists x t1,
    (if foundStart t then (inl "<"%char, setFoundStart t false) else ReadByte t)
      = (x, t1) /\ prefixes t1 = prefixes t /\ spaces t1 = spaces t).
  { destruct (foundStart t) eqn:Hfs.
    - eexists _, _. split; [reflexivity|]. done.
    - destruct (ReadByte t) as [x t1] eqn:E. exists x, t1. split; [done|].
      by apply ReadByte_reads, reads_fields in E as (_ & _ & _ & _ & F5 & F6). }
  destruct H1 as (x & t1 & -> & A5 & A6).
  destruct x as [b|e0]; [|discriminate].
  assert (Hreads : forall t2, reads t1 t2 ->
            prefixes t2 = prefixes t /\ spaces t2 = spaces t).
  { intros t2 (_ & _ & _ & _ & F5 & F6)%reads_fields. by rewrite F5, F6. }
  destruct (negb (b =? "<")%char).
  { unfold decodeCharData.
    destruct (decodeCharData_loop _ _ _) as [[[data e1] found] rest] eqn:E.
    intros [= <- <- <-]. right. right.
    destruct found; cbn; rewrite A5, A6; done. }
  destruct (ReadByte t1) as [[c|e1] t2] eqn:E2; apply ReadByte_reads in E2;
    [|discriminate].
  destruct (c =? "!")%char.
  { destruct (ReadByte t2) as [[c3|e1] t3] eqn:E3; apply ReadByte_reads in E3;
      [|discriminate].
    destruct (c3 =? "-")%char.
    - destruct (ReadByte t3) as [[c4|e1] t4] eqn:E4; apply ReadByte_reads in E4;
        [|discriminate].
      destruct (c4 =? "-")%char; [|discriminate].
      destruct (decodeComment t4 (Some [])) as [[data e1] t5] eqn:E5.
      apply decodeComment_reads in E5. intros [= <- <- <-]. right. right.
      assert (Hr : reads t1 t5) by reads_chain. apply Hreads in Hr as [-> ->]. done.
    - destruct (decodeDirective t3 (Some [c3])) as [[data e1] t4] eqn:E4.
      apply decodeDirective_reads in E4. intros [= <- <- <-]. right. right.
      assert (Hr : reads t1 t4) by reads_chain. apply Hreads in Hr as [-> ->]. done. }
  destruct (c =? "?")%char.
  { destruct (decodeProcInst t2 None) as [[[target inst] [e1|]] t3] eqn:E3;
      apply decodeProcInst_reads in E3; intros [= <- <- <-]. right. right.
    assert (Hr : reads t1 t3) by reads_chain. apply Hreads in Hr as [-> ->]. done. }
  apply Hreads in E2 as [E5 E6].
  destruct (c =? "/")%char.
  { unfold decodeEndElement.
    destruct (decodeName isNameByte t2 nul false) as [[[[name sep] def] oe] t3] eqn:E3.
    intros H. right. left.
    destruct oe; injection H as <- <- <-; eexists _, t2, t3, _; done. }
  destruct (decodeStartElement isNameByte t2 c) as [[[[name attr] e1] t3]|] eqn:E3;
    [|discriminate].
  intros [= <- <- <-]. left. eexists _, _, t2, c. done.
Qed.

(** A call that returns a StartElement has pushed one entry on each
    namespace stack and left the entries below as they were. *)
Theorem Token_start_pushes t name attr e t' :
  Token isNameByte t = Some ((Some (StartElement name attr), e), t') ->
  exists m s, prefixes t' = prefixes t ++ [m] /\ spaces t' = spaces t ++ [s].
Proof.
  intros H. destruct (selfClose t) as [n|] eqn:Hsc.
  { unfold Token in H. rewrite Hsc in H. discriminate. }
  destruct (Token_cases _ _ _ _ Hsc H) as
    [(n & a & t2 & b & _ & H5 & H6 & H') | [(n & ? & ? & ? & Heq & _) | (H' & _)]].
  - apply decodeStartElement_top in H' as (m & s & -> & ->). rewrite H5, H6. eauto.
  - discriminate.
  - by destruct (H' name attr).
Qed.

(** A call that reads an end tag pops the top entry of each namespace
    stack, and pops nothing off an empty one. *)
Theorem Token_end_pops t name e t' :
  selfClose t = None ->
  Token isNameByte t = Some ((Some (EndElement name), e), t') ->
  prefixes t' = dropTop (prefixes t) /\ spaces t' = dropTop (spaces t).
Proof.
  intros Hsc H. destruct (Token_cases _ _ _ _ Hsc H) as
    [(n & a & ? & ? & Heq & _) | [(n & t2 & t3 & res & _ & H5 & H6 & HN & ->) | (_ & H' & _)]];
    [discriminate| |by destruct (H' name)].
  apply decodeName_reads, reads_fields in HN as (_ & _ & _ & _ & F5 & F6).
  rewrite <- H5, <- H6, <- F5, <- F6. clear.
  destruct t3 as [rd fs sc pfx sp]. unfold popStacks. cbn [prefixes].
  destruct pfx as [|m pfx]; destruct sp as [|s sp]; split; reflexivity.
Qed.

(** A start tag that is not self-closing, followed by an end tag, leaves
    both namespace stacks as they were before the start tag. *)
Theorem Token_start_end_balanced t name attr e t1 name' e' t2 :
  Token isNameByte t = Some ((Some (StartElement name attr), e), t1) ->
  selfClose t1 = None ->
  Token isNameByte t1 = Some ((Some (EndElement name'), e'), t2) ->
  prefixes t2 = prefixes t /\ spaces t2 = spaces t.
Proof.
  intros H1 Hsc H2.
  destruct (selfClose t) as [n|] eqn:Hsc0.
  { unfold Token in H1. rewrite Hsc0 in H1. discriminate. }
  destruct (Token_cases _ _ _ _ Hsc0 H1) as
    [(n & a & t0 & b & _ & H5 & H6 & H) | [(n & ? & ? & ? & Heq & _) | (H & _)]];
    [|discriminate|by destruct (H name attr)].
  apply decodeStartElement_top in H as (m & s & Hp & Hs).
  destruct (Token_cases _ _ _ _ Hsc H2) as
    [(n' & a' & ? & ? & Heq & _) | [(n' & t3 & t4 & res & _ & K5 & K6 & HN & ->) | (_ & H & _)]];
    [discriminate| |by destruct (H name')].
  apply decodeName_reads, reads_fields in HN as (_ & _ & _ & _ & F5 & F6).
  assert (P : prefixes t4 = prefixes t ++ [m]) by (by rewrite F5, K5, Hp, H5).
  assert (S : spaces t4 = spaces t ++ [s]) by (by rewrite F6, K6, Hs, H6).
  clear -P S. destruct t4 as [rd fs sc pfx sp]. cbn in P, S. subst pfx sp.
  unfold popStacks. cbn [prefixes].
  assert (L1 : (0 <? len (prefixes t ++ [m])) = true).
  { apply Z.ltb_lt. unfold len. rewrite length_app. simpl. lia. }
  assert (L2 : (0 <? len (spaces t ++ [s])) = true).
  { apply Z.ltb_lt. unfold len. rewrite length_app. simpl. lia. }
  rewrite L1. cbn. rewrite L2. cbn. by rewrite !dropTop_snoc.
Qed.

End Stacks.

Lemma Token_start_pushes_witness :
  let t := NewTokenizer (bytes "<a xmlns:p='u'>") in
  exists name attr t',
    Token isNameByte t = Some ((Some (StartElement name attr), None), t') /\
    exists m s, prefixes t' = prefixes t ++ [m] /\ spaces t' = spaces t ++ [s].
Proof.
  intros t. eexists _, _, _. split; [vm_compute; reflexivity|].
  eapply (Token_start_pushes isNameByte t). vm_compute. reflexivity.
Defined.

Lemma Token_end_pops_witness :
  let t := mkTokenizer (mkReader (bytes "</a>") EOF) false None [∅; ∅] ["u"; "v"] in
  exists t',
    Token isNameByte t = Some ((Some (EndElement (mkName "v" "a")), None), t') /\
    prefixes t' = dropTop (prefixes t) /\ spaces t' = dropTop (spaces t).
Proof.
  intros t. eexists. split; [vm_compute; reflexivity|].
  eapply (Token_end_pops isNameByte t); [reflexivity|]. vm_compute. reflexivity.
Defined.

Lemma Token_start_end_balanced_witness :
  let t := NewTokenizer (bytes "<a xmlns='u'></a>") in
  exists tok1 t1 tok2 t2,
    Token isNameByte t = Some ((Some tok1, None), t1) /\
    Token isNameByte t1 = Some ((Some tok2, None), t2) /\
    prefixes t2 = prefixes t /\ spaces t2 = spaces t.
Proof.
  intros t. eexists _, _, _, _.
  split; [vm_compute; reflexivity|]. split; [vm_compute; reflexivity|].
  eapply (Token_start_end_balanced isNameByte t); [vm_compute; reflexivity|reflexivity|].
  vm_compute. reflexivity.
Defined.

Section Elements.

Variable isNameByte : byte -> bool.

(** ** Attributes *)

Lemma decodeAttr_value_text fin value quote rest name raw :
  quote ∉ value ->
  decodeAttr_value fin (value ++ quote :: rest) quote name raw =
    ((mkAttr name (raw +:+ str value), None), rest).
Proof.
  revert raw. induction value as [|c value IH]; intros raw Hnot.
  - cbn. rewrite Ascii.eqb_refl. by rewrite append_empty_r.
  - apply not_elem_of_cons in Hnot as [Hc Hnot].
    apply not_eq_sym, Ascii.eqb_neq in Hc. cbn [app decodeAttr_value].
    rewrite Hc, IH by done. by rewrite WriteByte_str.
Qed.

Lemma decodeAttr_value_ok (t : Tokenizer) (b : byte) (name : list byte)
    (q : byte) (value rest : list byte) :
  input (r t) = name ++ "="%char :: q :: value ++ q :: rest ->
  forallb isNameByte name = true -> isNameByte "="%char = false ->
  q = "'"%char \/ q = dquote -> q ∉ value ->
  decodeAttr isNameByte t b =
    ((mkAttr (denotes t true
                (if negb (b =? nul)%char then String b EmptyString else EmptyString)
                name)
        (str value), None),
     setInput t rest).
Proof.
  intros Hin Hname Heq Hq Hnot. unfold decodeAttr.
  rewrite (decodeName_denotes isNameByte t b true name "="%char
             (q :: value ++ q :: rest)) by done.
  cbn zeta. cbn [negb Ascii.eqb]. change ("=" =? "=")%char with true. cbn [negb].
  destruct t as [[inp fin] fs sc pfx sp]. cbn [ReadByte setInput r input final].
  assert (Hquote : negb (q =? "'")%char && negb (q =? dquote)%char = false).
  { destruct Hq as [-> | ->]; reflexivity. }
  rewrite Hquote. rewrite decodeAttr_value_text by done. reflexivity.
Qed.

(** An attribute [name=q value q], [q] being either quote, is decoded to
    its name, resolved without the default namespace, and to the bytes
    between the quotes as they are. *)
Theorem decodeAttr_quoted (t : Tokenizer) (b : byte) (name : list byte)
    (q : byte) (value rest : list byte) :
  input (r t) = name ++ "="%char :: q :: value ++ q :: rest ->
  forallb isNameByte name = true -> isNameByte "="%char = false ->
  q = "'"%char \/ q = dquote -> q ∉ value ->
  decodeAttr isNameByte t b =
    ((mkAttr (denotes t true
                (if negb (b =? nul)%char then String b EmptyString else EmptyString)
                name)
        (str value), None),
     setInput t rest).
Proof. apply decodeAttr_value_ok. Qed.

(** An attribute name ended by a byte other than [=] is the error "bad
    attribute separator" naming that byte, whatever follows it, even nothing;
    [=] followed by a byte that is not a quote is the error "expected quoted
    attribute value". Either way the byte looked at last has been read. *)
Theorem decodeAttr_malformed (t : Tokenizer) (b : byte) (name : list byte)
    (term : byte) (rest : list byte) :
  input (r t) = name ++ term :: rest ->
  forallb isNameByte name = true -> isNameByte term = false ->
  (term <> "="%char ->
   decodeAttr isNameByte t b = ((Attr0, Some (ErrBadAttrSep term)), setInput t rest)) /\
  (term = "="%char ->
   forall (c : byte) (rest' : list byte),
     rest = c :: rest' -> c <> "'"%char -> c <> dquote ->
     decodeAttr isNameByte t b = ((Attr0, Some ErrExpectedQuote), setInput t rest')).
Proof.
  intros Hin Hname Hterm. unfold decodeAttr.
  rewrite (decodeName_denotes isNameByte t b true name term rest) by done.
  cbn zeta. split.
  - intros Hne. apply Ascii.eqb_neq in Hne. by rewrite Hne.
  - intros -> c rest' -> Hc1 Hc2. apply Ascii.eqb_neq in Hc1, Hc2.
    destruct t as [[inp fin] fs sc pfx sp]. cbn. by rewrite Hc1, Hc2.
Qed.

(** ** Start tags *)

(** A start tag [<X>] without attributes gives a StartElement named X with
    an empty attribute list; an empty map and an empty default namespace
    have been pushed, and no end element is pending. *)
Theorem Token_start_tag (t : Tokenizer) (b : byte) (X rest : list byte) :
  selfClose t = None ->
  pending t = "<"%char :: b :: X ++ ">"%char :: rest ->
  b <> "!"%char -> b <> "?"%char -> b <> "/"%char -> b <> nul ->
  forallb isNameByte X = true -> isNameByte ">"%char = false ->
  exists t',
    Token isNameByte t =
      Some ((Some (StartElement (denotes (pushed t) false (String b EmptyString) X)
                     (Some [])), None), t') /\
    prefixes t' = prefixes t ++ [∅] /\ spaces t' = spaces t ++ [EmptyString] /\
    input (r t') = rest /\ selfClose t' = None /\ foundStart t' = false.
Proof.
  intros Hsc Hp Hb1 Hb2 Hb3 Hb0 HX Hgt.
  rewrite (Token_open isNameByte t _ _ Hsc Hp). cbn zeta.
  apply Ascii.eqb_neq in Hb1, Hb2, Hb3, Hb0. rewrite Hb1, Hb2, Hb3.
  unfold decodeStartElement.
  rewrite (decodeName_denotes isNameByte _ b false X ">"%char rest) by done.
  rewrite Hb0. cbn [negb]. cbn zeta.
  destruct t as [[inp fin] fs sc pfx sp]. cbn in Hsc. subst sc.
  destruct (afterColon X) as [l|] eqn:HaC; cbn; eexists; (split; [reflexivity|done]).
Qed.

End Elements.

Lemma decodeAttr_quoted_witness :
  let t := mkTokenizer (mkReader (bytes "ar='baz'>") EOF) false None [∅] ["u"] in
  decodeAttr isNameByte t "b"%char =
    ((mkAttr (mkName EmptyString "bar") "baz", None), setInput t (bytes ">")).
Proof.
  intros t.
  apply (decodeAttr_quoted isNameByte t "b"%char (bytes "ar") "'"%char (bytes "baz")
           (bytes ">")); try reflexivity; [by left|].
  intros Hin. repeat (apply elem_of_cons in Hin as [Hin|Hin]; [discriminate|]).
  by apply elem_of_nil in Hin.
Defined.

Lemma decodeAttr_malformed_witness :
  let t := NewTokenizer (bytes "ar>") in
  let u := NewTokenizer (bytes "ar=x>") in
  decodeAttr isNameByte t "b"%char =
    ((Attr0, Some (ErrBadAttrSep ">"%char)), setInput t []) /\
  decodeAttr isNameByte u "b"%char =
    ((Attr0, Some ErrExpectedQuote), setInput u (bytes ">")).
Proof.
  intros t u. split.
  - apply (proj1 (decodeAttr_malformed isNameByte t "b"%char (bytes "ar") ">"%char []
                    eq_refl eq_refl eq_refl)).
    discriminate.
  - apply (proj2 (decodeAttr_malformed isNameByte u "b"%char (bytes "ar") "="%char
                    (bytes "x>") eq_refl eq_refl eq_refl) eq_refl "x"%char (bytes ">"));
      solve [reflexivity | discriminate].
Defined.

Lemma Token_start_tag_witness :
  let t := mkTokenizer (mkReader (bytes "<p:a>z") EOF) false None
             [{["p" := "urn:p"]}] ["u"] in
  exists t',
    Token isNameByte t =
      Some ((Some (StartElement (mkName "urn:p" "a") (Some [])), None), t') /\
    prefixes t' = prefixes t ++ [∅] /\ spaces t' = spaces t ++ [EmptyString] /\
    input (r t') = bytes "z" /\ selfClose t' = None /\ foundStart t' = false.
Proof.
  intros t.
  apply (Token_start_tag isNameByte t "p"%char (bytes ":a") (bytes "z"));
    solve [reflexivity | discriminate].
Defined.

(** ** Namespaces *)

Lemma walkSpaces_empty (down : list string) (space : string) :
  Forall (fun s => s = EmptyString) down -> space = EmptyString ->
  walkSpaces down space = EmptyString.
Proof.
  induction 1 as [|s down Hs _ IH] in space |- *; intros ->; [reflexivity|].
  subst s. cbn. by apply IH.
Qed.

(** The default namespace in force is the nearest one that is not empty,
    from the top of the stack down; there is none when all are empty. *)
Theorem walkSpaces_nearest (below above : list string) (u : string) :
  Forall (fun s => s = EmptyString) above ->
  walkSpaces (reverse (below ++ u :: above)) EmptyString =
    if (u =? EmptyString)%string then walkSpaces (reverse below) EmptyString else u.
Proof.
  intros Habove. rewrite reverse_app, reverse_cons, <- app_assoc.
  assert (Hgen : forall down space,
            Forall (fun s => s = EmptyString) down -> space = EmptyString ->
            walkSpaces (down ++ [u] ++ reverse below) space =
              if (u =? EmptyString)%string then walkSpaces (reverse below) EmptyString
              else u).
  { intros down. induction down as [|s down IH]; intros space Hd ->.
    - cbn. destruct (u =? EmptyString)%string eqn:E; [|reflexivity].
      apply String.eqb_eq in E. by subst u.
    - inversion Hd as [|? ? Hs Hd']; subst. cbn [app walkSpaces]. cbn. by apply IH. }
  apply Hgen; [|done]. by apply Forall_reverse.
Qed.

(** A prefix resolves to its nearest binding that is not empty, from the top
    of the stack down. *)
Theorem walkPrefixes_nearest (below above : list (gmap string string))
    (m : gmap string string) (p v : string) :
  mapGet m p = v -> v <> EmptyString ->
  (forall m', m' ∈ above -> mapGet m' p = EmptyString) ->
  walkPrefixes (reverse (below ++ m :: above)) p = v.
Proof.
  intros Hm Hv Habove. rewrite reverse_app, reverse_cons, <- app_assoc.
  assert (Hgen : forall down,
            (forall m', m' ∈ down -> mapGet m' p = EmptyString) ->
            walkPrefixes (down ++ [m] ++ reverse below) p = v).
  { induction down as [|m' down IH]; intros Hd.
    - cbn. rewrite Hm. apply String.eqb_neq in Hv. by rewrite Hv.
    - cbn [app walkPrefixes]. rewrite (Hd m') by constructor. cbn.
      apply IH. intros m'' H''. apply Hd. by constructor. }
  apply Hgen. intros m' Hm'. apply Habove. by apply elem_of_reverse.
Qed.

Section Namespaces.

Variable isNameByte : byte -> bool.

(** An attribute name without a prefix has an empty Space, whatever default
    namespace is in force. *)
Theorem decodeAttr_no_default (t : Tokenizer) (b : byte) (name : list byte)
    (q : byte) (value rest : list byte) :
  input (r t) = name ++ "="%char :: q :: value ++ q :: rest ->
  forallb isNameByte name = true -> isNameByte "="%char = false ->
  afterColon name = None -> b <> nul ->
  q = "'"%char \/ q = dquote -> q ∉ value ->
  fst (decodeAttr isNameByte t b) =
    (mkAttr (mkName EmptyString (String b (str name))) (str value), None).
Proof.
  intros Hin Hname Heq Hnc Hb Hq Hnot.
  rewrite (decodeAttr_value_ok isNameByte t b name q value rest) by done.
  apply Ascii.eqb_neq in Hb. rewrite Hb. unfold denotes. by rewrite Hnc.
Qed.

Lemma loop_space fuel t name sep def attr c rest :
  isSpace sep = true -> input (r t) = c :: rest ->
  decodeStartElement_loop isNameByte (S fuel) t name sep def attr =
    decodeStartElement_loop isNameByte fuel (setInput t rest) name c def attr.
Proof.
  intros Hsp Hin. cbn [decodeStartElement_loop]. rewrite Hsp.
  by rewrite (ReadByte_cons t c rest Hin).
Qed.

Lemma loop_close fuel t name def attr :
  decodeStartElement_loop isNameByte (S fuel) t name ">"%char def attr =
    Some (((name, attr), None), t).
Proof. reflexivity. Qed.

Lemma loop_attr fuel t name sep def attr a t1 c rest :
  isSpace sep = false -> sep <> "/"%char -> sep <> ">"%char ->
  decodeAttr isNameByte t sep = ((a, None), t1) -> input (r t1) = c :: rest ->
  decodeStartElement_loop isNameByte (S fuel) t name sep def attr =
    let attr' :=
      if negb (Local (AName a) =? EmptyString)%string then append attr a else attr in
    let '(t3, name', def') := bookkeep (setInput t1 rest) name def a in
    decodeStartElement_loop isNameByte fuel t3 name' c def' attr'.
Proof.
  intros Hsp H1 H2 Ha Hin. apply Ascii.eqb_neq in H1, H2.
  cbn [decodeStartElement_loop]. rewrite Hsp, H1, H2, Ha.
  by rewrite (ReadByte_cons t1 c rest Hin).
Qed.

(** An element whose start tag declares a default namespace takes it, and
    the declaration is kept on top of the stack of default namespaces for
    the elements inside. *)
Theorem Token_declares_default (t : Tokenizer) (b : byte) (X : list byte)
    (q : byte) (U rest : list byte) :
  selfClose t = None ->
  pending t = "<"%char :: b :: X ++ bytes " xmlns=" ++ q :: U ++ q :: ">"%char :: rest ->
  b <> "!"%char -> b <> "?"%char -> b <> "/"%char -> b <> nul ->
  forallb isNameByte X = true -> afterColon X = None ->
  forallb isNameByte (bytes "mlns") = true ->
  isNameByte " "%char = false -> isNameByte "="%char = false ->
  q = "'"%char \/ q = dquote -> q ∉ U ->
  exists t',
    Token isNameByte t =
      Some ((Some (StartElement (mkName (str U) (String b (str X)))
                     (Some [mkAttr (mkName EmptyString "xmlns") (str U)])), None), t') /\
    spaces t' = spaces t ++ [str U] /\ prefixes t' = prefixes t ++ [∅] /\
    input (r t') = rest.
Proof.
  intros Hsc Hp Hb1 Hb2 Hb3 Hb0 HX Hnc Hmlns Hsp Heq Hq Hnot.
  rewrite (Token_open isNameByte t _ _ Hsc Hp). cbn zeta.
  apply Ascii.eqb_neq in Hb1, Hb2, Hb3, Hb0. rewrite Hb1, Hb2, Hb3.
  unfold decodeStartElement.
  rewrite (decodeName_denotes isNameByte _ b false X " "%char
             (bytes "xmlns=" ++ q :: U ++ q :: ">"%char :: rest)) by done.
  rewrite Hb0, Hnc. cbn [negb]. cbn zeta. unfold denotes. rewrite Hnc.
  match goal with
  | |- context [decodeStartElement_loop _ _ ?t1' ?name' _ ?def' _] =>
      set (t1 := t1'); set (name := name'); set (def := def')
  end.
  assert (Hlen : exists fuel, length (input (r t1)) = S (S fuel)).
  { unfold t1. cbn. eauto. }
  destruct Hlen as [fuel ->].
  rewrite (loop_space _ t1 name " "%char def (Some []) "x"%char
             (bytes "mlns=" ++ q :: U ++ q :: ">"%char :: rest)) by done.
  set (t2 := setInput t1 _).
  assert (Ha : decodeAttr isNameByte t2 "x"%char =
            ((mkAttr (mkName EmptyString "xmlns") (str U), None),
             setInput t2 (">"%char :: rest))).
  { by rewrite (decodeAttr_value_ok isNameByte t2 "x"%char (bytes "mlns") q U
                  (">"%char :: rest)). }
  rewrite (loop_attr _ t2 name "x"%char def (Some []) _ _ ">"%char rest
             eq_refl ltac:(discriminate) ltac:(discriminate) Ha eq_refl).
  cbn zeta.
  assert (Hbk : bookkeep (setInput (setInput t2 (">"%char :: rest)) rest) name def
                  (mkAttr (mkName EmptyString "xmlns") (str U)) =
                (setSpaces (setInput (setInput t2 (">"%char :: rest)) rest)
                   (setTop (spaces t2) (str U)),
                 mkName (str U) (Local name), true)) by reflexivity.
  rewrite Hbk. rewrite loop_close.
  destruct t as [[inp fin] fs sc pfx sp]. cbn. rewrite setTop_snoc.
  eexists. split; [reflexivity|]. done.
Qed.

End Namespaces.

Lemma Token_declares_default_witness :
  let t := mkTokenizer (mkReader (bytes "<foo xmlns='urn:f'>z") EOF) false None [∅] ["u"] in
  exists t',
    Token isNameByte t =
      Some ((Some (StartElement (mkName "urn:f" "foo")
                     (Some [mkAttr (mkName EmptyString "xmlns") "urn:f"])), None), t') /\
    spaces t' = spaces t ++ ["urn:f"] /\ prefixes t' = prefixes t ++ [∅] /\
    input (r t') = bytes "z".
Proof.
  intros t.
  apply (Token_declares_default isNameByte t "f"%char (bytes "oo") "'"%char
           (bytes "urn:f") (bytes "z")); try reflexivity; try discriminate; [by left|].
  intros Hin. repeat (apply elem_of_cons in Hin as [Hin|Hin]; [discriminate|]).
  by apply elem_of_nil in Hin.
Defined.

Lemma walkPrefixes_nearest_witness :
  walkPrefixes (reverse ([{["p" := "outer"]}] ++ {["p" := "inner"]} :: [∅])) "p" = "inner".
Proof.
  apply (walkPrefixes_nearest [{["p" := "outer"]}] [∅] {["p" := "inner"]} "p" "inner");
    [reflexivity|discriminate|].
  intros m Hm. apply list_elem_of_singleton in Hm. by subst m.
Defined.

Lemma walkSpaces_nearest_witness :
  walkSpaces (reverse (["a"] ++ "b" :: [EmptyString; EmptyString])) EmptyString = "b".
Proof.
  apply (walkSpaces_nearest ["a"] [EmptyString; EmptyString] "b").
  repeat constructor.
Defined.

Lemma decodeAttr_no_default_witness :
  let t := mkTokenizer (mkReader (bytes "ar='baz'>") EOF) false None [∅] ["u"] in
  fst (decodeAttr isNameByte t "b"%char) =
    (mkAttr (mkName EmptyString "bar") "baz", None).
Proof.
  intros t.
  apply (decodeAttr_no_default isNameByte t "b"%char (bytes "ar") "'"%char (bytes "baz")
           (bytes ">")); try reflexivity; try discriminate; [by left|].
  intros Hin. repeat (apply elem_of_cons in Hin as [Hin|Hin]; [discriminate|]).
  by apply elem_of_nil in Hin.
Defined.

(** ** Instances *)

Lemma Token_reads_forward_witness :
  let t := NewTokenizer (bytes "<a b='c'>z") in
  exists res t',
    Token isNameByte t = Some (res, t') /\
    input (r t') `suffix_of` input (r t) /\ final (r t') = final (r t).
Proof.
  intros t. eexists _, _. split; [vm_compute; reflexivity|].
  eapply (Token_reads_forward isNameByte t). vm_compute. reflexivity.
Defined.

Lemma Token_keeps_aligned_witness :
  let t := mkTokenizer (mkReader (bytes "</a>z") EOF) false None [∅; ∅] ["u"; "v"] in
  exists res t', Token isNameByte t = Some (res, t') /\ aligned t'.
Proof.
  intros t. eexists _, _. split; [vm_compute; reflexivity|].
  eapply (Token_keeps_aligned isNameByte t); [vm_compute; reflexivity|reflexivity].
Defined.

Lemma Token_flags_exclusive_witness :
  let t := NewTokenizer (bytes "text<a/>") in
  exists res t',
    Token isNameByte t = Some (res, t') /\
    ~ (foundStart t' = true /\ is_Some (selfClose t')).
Proof.
  intros t. eexists _, _. split; [vm_compute; reflexivity|].
  eapply (Token_flags_exclusive isNameByte t). vm_compute. reflexivity.
Defined.

Lemma Token_at_end_witness :
  Token isNameByte (NewTokenizer []) = Some ((None, Some EOF), NewTokenizer []).
Proof. exact (Token_at_end isNameByte (NewTokenizer []) eq_refl eq_refl). Defined.


Lemma Token_bad_comment_start_witness :
  exists t',
    Token isNameByte (NewTokenizer (bytes "<!-x>")) =
      Some ((None, Some (SyntaxError "invalid sequence <!- not part of <!--")), t') /\
    input (r t') = bytes ">".
Proof.
  apply (Token_bad_comment_start isNameByte (NewTokenizer (bytes "<!-x>")) "x"%char
           (bytes ">")); solve [reflexivity | discriminate].
Defined.

Lemma Token_chardata_witness :
  exists t',
    Token isNameByte (NewTokenizer (bytes "text<a>")) =
      Some ((Some (CharData (Some (bytes "text"))), None), t') /\
    pending t' = bytes "<a>" /\ input (r t') = bytes "a>" /\ selfClose t' = None.
Proof.
  apply (Token_chardata isNameByte (NewTokenizer (bytes "text<a>")) "t"%char
           (bytes "ext") (bytes "a>")); try reflexivity; try discriminate.
  intros Hin. repeat (apply elem_of_cons in Hin as [Hin|Hin]; [discriminate|]).
  by apply elem_of_nil in Hin.
Defined.

Lemma Token_directive_witness :
  exists t',
    Token isNameByte (NewTokenizer (bytes "<!dir>z")) =
      Some ((Some (Directive (Some (bytes "dir"))), None), t') /\
    input (r t') = bytes "z" /\ foundStart t' = false.
Proof.
  apply (Token_directive isNameByte (NewTokenizer (bytes "<!dir>z")) "d"%char
           (bytes "ir") (bytes "z")); try reflexivity; try discriminate.
  intros Hin. repeat (apply elem_of_cons in Hin as [Hin|Hin]; [discriminate|]).
  by apply elem_of_nil in Hin.
Defined.
